(** * The array routines of the CNN notebook (cnn.ipynb)

    The notebook defines three functions over numpy arrays:
    [convolution2d], [convolution2d_with_padding] and [max_pooling2d].
    Each one allocates an output array with [np.zeros], fills it cell by
    cell inside two nested [for] loops and returns it.

    The embedding keeps that shape.  Arrays live in a heap indexed by
    references; the functions are programs of a state-and-exception
    monad over that heap; the numpy primitives they call ([shape],
    basic slicing, broadcasting [*], [np.sum], [np.max], [np.pad],
    [np.zeros], item assignment) are modelled one by one, including the
    exceptions numpy and Python raise.

    Numbers.  The notebook builds its images and kernels with
    [np.array] from Python integers, which gives int64 arrays, and its
    functions write into the float64 array made by [np.zeros].  Array
    entries are integers ([Z]); the arithmetic on them is numpy's:
    [*] and [np.sum] on the argument arrays are int64 operations and
    wrap around ([wrap64]), and an item assignment into the output
    converts the value to float64, that is, rounds it to 53 significant
    bits ([to_float64]).  Every float64 the functions can store is an
    integer, so the output arrays have entries in [Z] as well; [np.max]
    and the conversion are the only operations applied to them.
    Arrays with fractional entries, and float arithmetic other than the
    conversion, are outside this model.  Sizes, loop counters,
    [pool_size], [stride] and [padding] are Python integers and are
    modelled by [Z], negative values included. *)

From Stdlib Require Import ZArith List Lia.
From stdpp Require Import gmap.

Local Open Scope Z_scope.

(** ** Two-dimensional arrays *)

Record ndarray : Type := NDArray {
  nrows : nat;              (* shape[0] *)
  ncols : nat;              (* shape[1] *)
  rows : list (list Z)      (* the entries, row by row *)
}.

(** [np.array] applied to a list of rows. *)
Definition np_array (l : list (list Z)) : ndarray :=
  NDArray (length l) (match l with [] => 0%nat | r :: _ => length r end) l.

(** Entry [(i, j)]; only used at positions inside the shape. *)
Definition item (a : ndarray) (i j : nat) : Z :=
  nth j (nth i (rows a) []) 0.

(** The array of shape [(r, c)] whose entry [(i, j)] is [f i j]. *)
Definition tabulate (r c : nat) (f : nat → nat → Z) : ndarray :=
  NDArray r c (map (λ i, map (f i) (seq 0 c)) (seq 0 r)).

(** The numbers an int64 can hold. *)
Definition int64_range (x : Z) : bool := (- 2 ^ 63 <=? x) && (x <? 2 ^ 63).

(** An array that [np.array] makes an int64 array of: every entry is in
    the int64 range. *)
Definition is_int64 (a : ndarray) : bool :=
  forallb (forallb int64_range) (rows a).

(** A genuine array: the stored rows match the recorded shape. *)
Definition is_matrix (r c : nat) (a : ndarray) : Prop :=
  nrows a = r ∧ ncols a = c ∧
  length (rows a) = r ∧ Forall (λ row, length row = c) (rows a).

(** ** Exceptions *)

Inductive exn : Type :=
  | ValueError           (* bad shape, negative dimension, empty reduction *)
  | IndexError           (* item assignment outside the array *)
  | ZeroDivisionError    (* [//] by zero *)
  | InvalidReference.    (* a reference that names no array *)

Inductive outcome (A : Type) : Type :=
  | Ok (a : A)
  | Raise (e : exn).
Arguments Ok {A} a.
Arguments Raise {A} e.

(** ** Machine numbers *)

(** The int64 that an integer operation with exact result [x] yields:
    numpy's integer arithmetic wraps around silently. *)
Definition wrap64 (x : Z) : Z := (x + 2 ^ 63) mod 2 ^ 64 - 2 ^ 63.

(** Rounding [n * q + r], with [0 <= r < q], to the nearest multiple of
    [q], a tie going to the even multiple. *)
Definition round_qr (q n r : Z) : Z :=
  if 2 * r <? q then n * q
  else if q <? 2 * r then (n + 1) * q
  else if Z.even n then n * q else (n + 1) * q.

(** Rounding [x] to the nearest multiple of [q], ties to even. *)
Definition round_at (q x : Z) : Z := round_qr q (x / q) (x mod q).

(** The exponent of the spacing of the float64 numbers around [x]. *)
Definition float64_exponent (x : Z) : Z := Z.max 0 (Z.log2 (Z.abs x) - 52).

(** The spacing itself: 1 up to 2^53, doubling with every further power
    of two. *)
Definition float64_spacing (x : Z) : Z := 2 ^ float64_exponent x.

(** The float64 that the integer [x] is converted to: the nearest one,
    ties to even.  It is an integer again. *)
Definition to_float64 (x : Z) : Z := round_at (float64_spacing x) x.

(** ** The numpy primitives, on array values *)

(** Python's adjustment of one end of a slice over a sequence of
    length [n] (step 1): a negative index counts from the end, and
    the result is clipped to [0 .. n]. *)
Definition slice_index (n : nat) (x : Z) : nat :=
  Z.to_nat (if x <? 0 then Z.max 0 (x + Z.of_nat n) else Z.min x (Z.of_nat n)).

(** First position and length of [start:stop]. *)
Definition slice_bounds (n : nat) (start stop : Z) : nat * nat :=
  let a := slice_index n start in
  let b := slice_index n stop in
  (a, (b - a)%nat).

(** [a[r0:r1, c0:c1]] *)
Definition np_slice (a : ndarray) (r0 r1 c0 c1 : Z) : ndarray :=
  let '(rs, rl) := slice_bounds (nrows a) r0 r1 in
  let '(cs, cl) := slice_bounds (ncols a) c0 c1 in
  tabulate rl cl (λ i j, item a (rs + i) (cs + j)).

(** Broadcasting of one axis: equal lengths, or one of them is 1. *)
Definition broadcast_dim (m n : nat) : option nat :=
  if decide (m = n) then Some m
  else if decide (m = 1%nat) then Some n
  else if decide (n = 1%nat) then Some m
  else None.

Definition broadcast_index (m i : nat) : nat :=
  if decide (m = 1%nat) then 0%nat else i.

(** [a * b] on int64 arrays, elementwise with broadcasting; each
    product wraps around. *)
Definition np_multiply (a b : ndarray) : outcome ndarray :=
  match broadcast_dim (nrows a) (nrows b), broadcast_dim (ncols a) (ncols b) with
  | Some r, Some c =>
      Ok (tabulate r c (λ i j,
            wrap64
              (item a (broadcast_index (nrows a) i) (broadcast_index (ncols a) j)
               * item b (broadcast_index (nrows b) i) (broadcast_index (ncols b) j))))
  | _, _ => Raise ValueError
  end.

(** The exact sum of a list of integers. *)
Definition zsum (l : list Z) : Z := fold_right Z.add 0 l.

(** The sum of a list of int64 numbers, accumulated in int64: every
    addition wraps around. *)
Definition sum64 (l : list Z) : Z :=
  fold_right (λ x acc, wrap64 (x + acc)) 0 l.

(** [np.sum(a)] on an int64 array: the sum of all entries, in int64. *)
Definition np_sum (a : ndarray) : Z := sum64 (map sum64 (rows a)).

(** [np.max(a)]: the largest entry; an empty array has none. *)
Definition np_max (a : ndarray) : outcome Z :=
  match concat (rows a) with
  | [] => Raise ValueError
  | x :: l => Ok (fold_left Z.max l x)
  end.

(** The value of [np.zeros((r, c))]. *)
Definition zeros (r c : nat) : ndarray := tabulate r c (λ _ _, 0).

(** The value of [np.pad(a, pad_width=p, mode='constant',
    constant_values=0)] for [p >= 0]. *)
Definition padded (a : ndarray) (p : nat) : ndarray :=
  tabulate (nrows a + 2 * p) (ncols a + 2 * p) (λ i j,
    if decide (p ≤ i < p + nrows a ∧ p ≤ j < p + ncols a)%nat
    then item a (i - p) (j - p) else 0).

(** Position of an integer index on an axis of length [n]; negative
    indices count from the end. *)
Definition axis_index (n : nat) (i : Z) : option nat :=
  if decide (0 ≤ i < Z.of_nat n) then Some (Z.to_nat i)
  else if decide (- Z.of_nat n ≤ i < 0) then Some (Z.to_nat (i + Z.of_nat n))
  else None.

(** The array [a] after [a[i, j] = v]. *)
Definition update (a : ndarray) (i j : nat) (v : Z) : ndarray :=
  NDArray (nrows a) (ncols a)
    (<[i := <[j := v]> (nth i (rows a) [])]> (rows a)).

(** Python's [x // y]. *)
Definition floordiv (x y : Z) : outcome Z :=
  if decide (y = 0) then Raise ZeroDivisionError else Ok (x / y).

(** [range(n)] *)
Definition range (n : Z) : list Z := map Z.of_nat (seq 0 (Z.to_nat n)).

(** ** The heap and the monad of programs *)

Definition loc : Type := positive.
Abbreviation heap := (gmap loc ndarray).

Definition M (A : Type) : Type := heap → outcome A * heap.

Definition ret {A} (a : A) : M A := λ h, (Ok a, h).

Definition bind {A B} (m : M A) (f : A → M B) : M B :=
  λ h, match m h with
       | (Ok a, h') => f a h'
       | (Raise e, h') => (Raise e, h')
       end.

Notation "x <- m ;; k" := (bind m (λ x, k))
  (at level 100, m at next level, right associativity).
Notation "m ;;; k" := (bind m (λ _, k))
  (at level 100, right associativity).

(** An array-level result inside a program. *)
Definition lift {A} (r : outcome A) : M A := λ h, (r, h).

(** A new array object. *)
Definition alloc (a : ndarray) : M loc :=
  λ h, let l := fresh (dom h) in (Ok l, <[l := a]> h).

(** The array a reference names. *)
Definition load (l : loc) : M ndarray :=
  λ h, match h !! l with
       | Some a => (Ok a, h)
       | None => (Raise InvalidReference, h)
       end.

(** [l.shape[0]] *)
Definition shape0 (l : loc) : M Z :=
  a <- load l ;; ret (Z.of_nat (nrows a)).

(** [np.zeros((r, c))] *)
Definition np_zeros (r c : Z) : M loc :=
  if decide (r < 0 ∨ c < 0) then lift (Raise ValueError)
  else alloc (zeros (Z.to_nat r) (Z.to_nat c)).

(** [np.pad(l, pad_width=p, mode='constant', constant_values=0)] *)
Definition np_pad (l : loc) (p : Z) : M loc :=
  a <- load l ;;
  if decide (p < 0) then lift (Raise ValueError)
  else alloc (padded a (Z.to_nat p)).

(** [l[r0:r1, c0:c1]], read at once *)
Definition getslice (l : loc) (r0 r1 c0 c1 : Z) : M ndarray :=
  a <- load l ;; ret (np_slice a r0 r1 c0 c1).

(** The slice [start:stop] of an axis of length [n] needs no clipping. *)
Definition slice_within (n : nat) (start stop : Z) : Prop :=
  0 ≤ start ≤ stop ∧ stop ≤ Z.of_nat n.

(** The window [a[r0:r1, c0:c1]] lies inside [a]. *)
Definition window_within (a : ndarray) (r0 r1 c0 c1 : Z) : Prop :=
  slice_within (nrows a) r0 r1 ∧ slice_within (ncols a) c0 c1.

#[global] Instance window_within_dec a r0 r1 c0 c1 :
  Decision (window_within a r0 r1 c0 c1).
Proof. unfold window_within, slice_within. apply _. Defined.

(** A bounds-checked reading of [l[r0:r1, c0:c1]]: the same slice when
    the window lies inside the array, IndexError when Python would have
    clipped it or counted from the end.  The notebook does not use it;
    it serves to say of a run that no window was clipped. *)
Definition getslice_checked (l : loc) (r0 r1 c0 c1 : Z) : M ndarray :=
  a <- load l ;;
  if decide (window_within a r0 r1 c0 c1) then ret (np_slice a r0 r1 c0 c1)
  else lift (Raise IndexError).

(** A way of reading a window of an array. *)
Definition slicing : Type := loc → Z → Z → Z → Z → M ndarray.

(** [l[i, j] = v] where [l] is a float64 array: the value is converted
    to float64 when it is stored. *)
Definition setitem (l : loc) (i j : Z) (v : Z) : M unit :=
  λ h, match h !! l with
       | None => (Raise InvalidReference, h)
       | Some a =>
           match axis_index (nrows a) i, axis_index (ncols a) j with
           | Some i', Some j' =>
               (Ok tt, <[l := update a i' j' (to_float64 v)]> h)
           | _, _ => (Raise IndexError, h)
           end
       end.

(** [for i in l: body(i)] *)
Fixpoint for_loop (l : list Z) (body : Z → M unit) : M unit :=
  match l with
  | [] => ret tt
  | i :: l' => body i ;;; for_loop l' body
  end.

(** ** The three functions of the notebook *)

(** Each function is written once, over the way windows are read
    ([slice]); the notebook's function is the instance at Python's
    slicing, [getslice]. *)

Definition convolution2d_on (slice : slicing) (image kernel : loc) : M loc :=
  kernel_size <- shape0 kernel ;;
  n <- shape0 image ;;
  let output_size := n - kernel_size + 1 in
  output <- np_zeros output_size output_size ;;
  for_loop (range output_size) (λ i,
    for_loop (range output_size) (λ j,
      window <- slice image i (i + kernel_size) j (j + kernel_size) ;;
      k <- load kernel ;;
      product <- lift (np_multiply window k) ;;
      setitem output i j (np_sum product))) ;;;
  ret output.

Definition convolution2d : loc → loc → M loc := convolution2d_on getslice.

Definition convolution2d_with_padding_on (slice : slicing)
    (image kernel : loc) (padding : Z) : M loc :=
  kernel_size <- shape0 kernel ;;
  padded_image <- np_pad image padding ;;
  output_size <- shape0 image ;;
  output <- np_zeros output_size output_size ;;
  for_loop (range output_size) (λ i,
    for_loop (range output_size) (λ j,
      window <- slice padded_image i (i + kernel_size) j (j + kernel_size) ;;
      k <- load kernel ;;
      product <- lift (np_multiply window k) ;;
      setitem output i j (np_sum product))) ;;;
  ret output.

Definition convolution2d_with_padding : loc → loc → Z → M loc :=
  convolution2d_with_padding_on getslice.

Definition max_pooling2d_on (slice : slicing)
    (image : loc) (pool_size stride : Z) : M loc :=
  n <- shape0 image ;;
  q <- lift (floordiv (n - pool_size) stride) ;;
  let output_size := q + 1 in
  output <- np_zeros output_size output_size ;;
  for_loop (range output_size) (λ i,
    for_loop (range output_size) (λ j,
      window <- slice image (i * stride) (i * stride + pool_size)
                            (j * stride) (j * stride + pool_size) ;;
      v <- lift (np_max window) ;;
      setitem output i j v)) ;;;
  ret output.

Definition max_pooling2d : loc → Z → Z → M loc := max_pooling2d_on getslice.

(** ** The notebook's data *)

Definition input_image : ndarray :=
  np_array [[1; 2; 3; 4; 5];
            [6; 7; 8; 9; 10];
            [11; 12; 13; 14; 15];
            [16; 17; 18; 19; 20];
            [21; 22; 23; 24; 25]].

Definition filter_kernel : ndarray :=
  np_array [[1; 0; -1];
            [1; 0; -1];
            [1; 0; -1]].

(** The array a run returns, read from the final heap. *)
Definition result (r : outcome loc * heap) : outcome ndarray :=
  match r with
  | (Ok l, h) =>
      match h !! l with
      | Some a => Ok a
      | None => Raise InvalidReference
      end
  | (Raise e, _) => Raise e
  end.

(** ** Specification vocabulary *)

(** [bigsum n f] is [f 0 + f 1 + ... + f (n-1)]. *)
Definition bigsum (n : nat) (f : nat → Z) : Z := zsum (map f (seq 0 n)).

(** The sliding-window weighted sum at position [(i, j)]. *)
Definition window_sum (image kernel : ndarray) (k i j : nat) : Z :=
  bigsum k (λ m, bigsum k (λ n,
    item image (i + m) (j + n) * item kernel m n)).

(** [v] is the largest entry of the [p]-by-[p] window of [image] whose
    top left corner is [(r, c)]. *)
Definition window_max (image : ndarray) (p r c : nat) (v : Z) : Prop :=
  (∃ m n, (m < p)%nat ∧ (n < p)%nat ∧ v = item image (r + m) (c + n)) ∧
  (∀ m n, (m < p)%nat → (n < p)%nat → item image (r + m) (c + n) ≤ v).

(** The same sum with every product replaced by its absolute value: a
    bound on every partial sum, whatever the order of the additions. *)
Definition abs_window_sum (image kernel : ndarray) (k i j : nat) : Z :=
  bigsum k (λ m, bigsum k (λ n,
    Z.abs (item image (i + m) (j + n) * item kernel m n))).

(** [a + b] for two int64 arrays of one shape: the cell-wise sum, in
    int64. *)
Definition int64_add (a b : ndarray) : ndarray :=
  tabulate (nrows a) (ncols a) (λ i j, wrap64 (item a i j + item b i j)).

(** [a + b] for two float64 arrays of one shape that hold integers: the
    cell-wise sum, rounded to float64. *)
Definition float64_add (a b : ndarray) : ndarray :=
  tabulate (nrows a) (ncols a) (λ i j, to_float64 (item a i j + item b i j)).

(** [a.astype(float64)]: the array converted to float64. *)
Definition as_float64 (a : ndarray) : ndarray :=
  tabulate (nrows a) (ncols a) (λ i j, to_float64 (item a i j)).

(** What one pass through the body of the loops computes before the
    assignment, as a function of the arrays read. *)
Definition conv_cell (image kernel : ndarray) (kernel_size i j : Z) : outcome Z :=
  match np_multiply (np_slice image i (i + kernel_size) j (j + kernel_size)) kernel with
  | Ok product => Ok (np_sum product)
  | Raise e => Raise e
  end.

Definition pool_cell (image : ndarray) (pool_size stride i j : Z) : outcome Z :=
  np_max (np_slice image (i * stride) (i * stride + pool_size)
                         (j * stride) (j * stride + pool_size)).

(** One pass through the body of the loops of the two convolutions,
    reading the window from [src], and of the pooling. *)
Definition convolution_pass (slice : slicing) (src kernel out : loc)
    (kernel_size i j : Z) : M unit :=
  window <- slice src i (i + kernel_size) j (j + kernel_size) ;;
  k <- load kernel ;;
  product <- lift (np_multiply window k) ;;
  setitem out i j (np_sum product).

Definition pooling_pass (slice : slicing) (image out : loc)
    (pool_size stride i j : Z) : M unit :=
  window <- slice image (i * stride) (i * stride + pool_size)
                        (j * stride) (j * stride + pool_size) ;;
  v <- lift (np_max window) ;;
  setitem out i j v.

(** The body of the loops once the arrays it reads are known: compute
    the cell, then assign it. *)
Definition store_cell (out : loc) (cell : Z → Z → outcome Z) (i j : Z) : M unit :=
  v <- lift (cell i j) ;; setitem out i j v.

Definition fill (out : loc) (cell : Z → Z → outcome Z) (n : Z) : M unit :=
  for_loop (range n) (λ i, for_loop (range n) (λ j, store_cell out cell i j)).

(** The end of each function: [return output] unless the loops raised. *)
Definition finish (out : loc) (r : outcome unit * heap) : outcome loc * heap :=
  match r with
  | (Ok _, h) => (Ok out, h)
  | (Raise e, h) => (Raise e, h)
  end.

(** What the convolutions store in a cell: the window sum as int64
    arithmetic yields it, converted to float64. *)
Definition stored_sum (image kernel : ndarray) (k i j : nat) : Z :=
  to_float64 (wrap64 (window_sum image kernel k i j)).

(** The feature map of an unpadded convolution. *)
Definition convolved (image kernel : ndarray) : ndarray :=
  let k := nrows kernel in
  let n := (nrows image - k + 1)%nat in
  tabulate n n (stored_sum image kernel k).

(** The feature map of [convolution2d_with_padding]. *)
Definition convolved_same (image kernel : ndarray) (p : nat) : ndarray :=
  tabulate (nrows image) (nrows image)
    (stored_sum (padded image p) kernel (nrows kernel)).

(** The largest entry of the [p]-by-[p] window at [(r, c)]. *)
Definition window_top (image : ndarray) (p r c : nat) : Z :=
  match np_max (tabulate p p (λ m n, item image (r + m) (c + n))) with
  | Ok v => v
  | Raise _ => 0
  end.

(** The output of the pooling: the largest entry of each window,
    converted to float64. *)
Definition pooled (image : ndarray) (p s : nat) : ndarray :=
  let n := ((nrows image - p) / s + 1)%nat in
  tabulate n n (λ i j, to_float64 (window_top image p (i * s) (j * s))).

(** What a call leaves behind: every array that existed before is still
    there with the same contents, and the reference returned, if any, is
    new. *)
Definition frame_preserved (h : heap) (r : outcome loc * heap) : Prop :=
  (∀ l a, h !! l = Some a → snd r !! l = Some a) ∧
  (∀ out, fst r = Ok out → h !! out = None).

(** A heap that holds the notebook's two arrays. *)
Definition demo_heap : heap :=
  <[2%positive := filter_kernel]> (<[1%positive := input_image]> ∅).

(** A 5-by-5 kernel of ones, as large as the notebook's image. *)
Definition wide_kernel : ndarray := tabulate 5 5 (λ _ _, 1).

(** The notebook's image with the wide kernel. *)
Definition wide_heap : heap :=
  <[2%positive := wide_kernel]> (<[1%positive := input_image]> ∅).

(** The notebook's arrays once more, stored elsewhere and next to an
    unrelated array. *)
Definition other_heap : heap :=
  <[7%positive := input_image]> (<[5%positive := filter_kernel]>
    (<[1%positive := wide_kernel]> ∅)).

(** The notebook's arrays and the sum of the kernel with itself. *)
Definition sum_heap : heap :=
  <[3%positive := int64_add filter_kernel filter_kernel]> demo_heap.

(** A 1-by-1 image and kernel whose product, 2^64, does not fit int64. *)
Definition overflow_image : ndarray := np_array [[2 ^ 62]].
Definition overflow_kernel : ndarray := np_array [[4]].
Definition overflow_heap : heap :=
  <[2%positive := overflow_kernel]> (<[1%positive := overflow_image]> ∅).

(** A 1-by-1 image whose entry, 2^53 + 1, is not a float64. *)
Definition odd_image : ndarray := np_array [[2 ^ 53 + 1]].
Definition odd_heap : heap := <[1%positive := odd_image]> ∅.

(** The image [[1]] with the kernels [[2^53 + 1]], [[1]] and their sum. *)
Definition one_image : ndarray := np_array [[1]].
Definition odd_kernel : ndarray := np_array [[2 ^ 53 + 1]].
Definition one_kernel : ndarray := np_array [[1]].
Definition rounding_heap : heap :=
  <[4%positive := int64_add odd_kernel one_kernel]>
  (<[3%positive := one_kernel]>
  (<[2%positive := odd_kernel]>
  (<[1%positive := one_image]> ∅))).

(** ** Vocabulary of the further properties *)

(** The array of the exact products [c * a[i][j]]. *)
Definition array_scale (c : Z) (a : ndarray) : ndarray :=
  tabulate (nrows a) (ncols a) (λ i j, c * item a i j).

(** [c * a] for a number and an int64 array: the products, in int64. *)
Definition int64_scale (c : Z) (a : ndarray) : ndarray :=
  tabulate (nrows a) (ncols a) (λ i j, wrap64 (c * item a i j)).

(** A 2-by-2 image, smaller than the notebook's kernel. *)
Definition small_image : ndarray := np_array [[1; 2]; [3; 4]].

(** The small image next to the notebook's kernel. *)
Definition small_heap : heap :=
  <[2%positive := filter_kernel]> (<[1%positive := small_image]> ∅).

(** A 2-by-3 image: more columns than rows. *)
Definition wide_image : ndarray := np_array [[1; 2; 3]; [4; 5; 6]].

(** A 2-by-2 kernel. *)
Definition pair_kernel : ndarray := np_array [[1; 2]; [3; 4]].

(** A 1-by-1 kernel. *)
Definition unit_kernel : ndarray := np_array [[3]].

(** The notebook's image plus one in every cell. *)
Definition brighter_image : ndarray :=
  tabulate 5 5 (λ i j, item input_image i j + 1).

(** The arrays used to exercise the further properties. *)
Definition extra_heap : heap :=
  <[8%positive := int64_scale 2 filter_kernel]>
  (<[7%positive := int64_add input_image brighter_image]>
  (<[6%positive := brighter_image]>
  (<[5%positive := unit_kernel]>
  (<[4%positive := pair_kernel]>
  (<[3%positive := wide_image]> demo_heap))))).

(** ** Proof automation *)

(** Case analysis on a natural number known to lie below a constant. *)
Ltac below i := repeat (destruct i as [| i]; [| try lia]).

(** * Properties *)

(** ** Machine numbers *)

Lemma wrap64_small x : - 2 ^ 63 ≤ x < 2 ^ 63 → wrap64 x = x.
Proof. intros Hx. unfold wrap64. rewrite Z.mod_small by lia. lia. Qed.

Lemma wrap64_add_r x y : wrap64 (x + wrap64 y) = wrap64 (x + y).
Proof.
  unfold wrap64.
  replace (x + ((y + 2 ^ 63) mod 2 ^ 64 - 2 ^ 63) + 2 ^ 63)
    with (x + (y + 2 ^ 63) mod 2 ^ 64) by lia.
  rewrite Z.add_mod_idemp_r by lia. f_equal. f_equal. lia.
Qed.

Lemma wrap64_idem x : wrap64 (wrap64 x) = wrap64 x.
Proof. apply (wrap64_add_r 0 x). Qed.

Lemma wrap64_mul_r x y : wrap64 (x * wrap64 y) = wrap64 (x * y).
Proof.
  unfold wrap64.
  replace (x * ((y + 2 ^ 63) mod 2 ^ 64 - 2 ^ 63) + 2 ^ 63)
    with (x * ((y + 2 ^ 63) mod 2 ^ 64) + (2 ^ 63 - x * 2 ^ 63)) by lia.
  rewrite <- Z.add_mod_idemp_l, Z.mul_mod_idemp_r, Z.add_mod_idemp_l by lia.
  f_equal. f_equal. lia.
Qed.

Section rounding.
Context (q : Z) (Hq : 0 < q).

Lemma round_at_qr x : round_at q x = round_qr q (x / q) (x mod q).
Proof. reflexivity. Qed.

Lemma round_qr_cases n r :
  (round_qr q n r = n * q ∧ 2 * r ≤ q) ∨
  (round_qr q n r = (n + 1) * q ∧ q ≤ 2 * r).
Proof.
  unfold round_qr.
  destruct (Z.ltb_spec (2 * r) q); [left; split; [done | lia] |].
  destruct (Z.ltb_spec q (2 * r)); [right; split; [done | lia] |].
  destruct (Z.even n); [left | right]; (split; [done | lia]).
Qed.

Lemma round_qr_mono_r n r1 r2 :
  r1 ≤ r2 → round_qr q n r1 ≤ round_qr q n r2.
Proof.
  intros Hr. unfold round_qr.
  destruct (Z.ltb_spec (2 * r1) q), (Z.ltb_spec (2 * r2) q); try nia;
  destruct (Z.ltb_spec q (2 * r1)), (Z.ltb_spec q (2 * r2)); try nia;
  destruct (Z.even n); nia.
Qed.

Lemma round_at_multiple m : round_at q (m * q) = m * q.
Proof.
  unfold round_at, round_qr. rewrite Z.div_mul, Z.mod_mul by lia.
  destruct (Z.ltb_spec (2 * 0) q); lia.
Qed.

Lemma round_at_le_multiple x m : x ≤ m * q → round_at q x ≤ m * q.
Proof.
  intros Hx. rewrite round_at_qr.
  pose proof (Z.div_mod x q ltac:(lia)) as Hdm.
  pose proof (Z.mod_pos_bound x q Hq) as Hr.
  revert Hdm Hr. generalize (x / q) (x mod q). intros n r Hdm Hr.
  destruct (round_qr_cases n r) as [[-> _] | [-> Hhalf]]; [nia |].
  assert (n < m); [| nia].
  destruct (Z.lt_ge_cases n m) as [| Hge]; [done |].
  pose proof (Z.mul_le_mono_nonneg_r m n q ltac:(lia) Hge). lia.
Qed.

Lemma round_at_ge_multiple x m : m * q ≤ x → m * q ≤ round_at q x.
Proof.
  intros Hx. rewrite round_at_qr.
  pose proof (Z.div_mod x q ltac:(lia)) as Hdm.
  pose proof (Z.mod_pos_bound x q Hq) as Hr.
  revert Hdm Hr. generalize (x / q) (x mod q). intros n r Hdm Hr.
  assert (m ≤ n).
  { destruct (Z.le_gt_cases m n) as [| Hlt]; [done |].
    pose proof (Z.mul_le_mono_nonneg_r (n + 1) m q ltac:(lia) ltac:(lia)).
    lia. }
  destruct (round_qr_cases n r) as [[-> _] | [-> Hhalf]]; nia.
Qed.

Lemma round_at_mono x y : x ≤ y → round_at q x ≤ round_at q y.
Proof.
  intros Hxy. rewrite !round_at_qr.
  pose proof (Z.div_mod x q ltac:(lia)) as Hx.
  pose proof (Z.mod_pos_bound x q Hq) as Hrx.
  pose proof (Z.div_mod y q ltac:(lia)) as Hy.
  pose proof (Z.mod_pos_bound y q Hq) as Hry.
  revert Hx Hrx Hy Hry.
  generalize (x / q) (x mod q) (y / q) (y mod q).
  intros n r n' r' Hx Hrx Hy Hry.
  assert (Hn : n ≤ n').
  { destruct (Z.le_gt_cases n n') as [| Hlt]; [done |].
    pose proof (Z.mul_le_mono_nonneg_r (n' + 1) n q ltac:(lia) ltac:(lia)).
    lia. }
  destruct (decide (n = n')) as [<- | Hne].
  - apply round_qr_mono_r. nia.
  - destruct (round_qr_cases n r) as [[-> _] | [-> _]];
    destruct (round_qr_cases n' r') as [[-> _] | [-> _]]; nia.
Qed.
End rounding.

Lemma float64_spacing_exponent x : float64_spacing x = 2 ^ float64_exponent x.
Proof. reflexivity. Qed.

Lemma float64_exponent_nonneg x : 0 ≤ float64_exponent x.
Proof. unfold float64_exponent. lia. Qed.

Lemma float64_exponent_mono x y :
  Z.abs x ≤ Z.abs y → float64_exponent x ≤ float64_exponent y.
Proof.
  intros Hxy. unfold float64_exponent.
  pose proof (Z.log2_le_mono _ _ Hxy). lia.
Qed.

(** |x| < 2^(53 + e) *)
Lemma float64_exponent_upper x : Z.abs x < 2 ^ (53 + float64_exponent x).
Proof.
  unfold float64_exponent.
  destruct (decide (Z.abs x = 0)) as [-> | Hnz].
  { apply Z.pow_pos_nonneg; simpl; lia. }
  pose proof (Z.log2_spec (Z.abs x) ltac:(lia)) as [_ Hup].
  pose proof (Z.log2_nonneg (Z.abs x)).
  eapply Z.lt_le_trans; [exact Hup |].
  apply Z.pow_le_mono_r; lia.
Qed.

(** e > 0 → 2^(52 + e) ≤ |x| *)
Lemma float64_exponent_lower x :
  0 < float64_exponent x → 2 ^ (52 + float64_exponent x) ≤ Z.abs x.
Proof.
  unfold float64_exponent. intros Hpos.
  assert (Hlog : 52 < Z.log2 (Z.abs x)) by lia.
  assert (0 < Z.abs x).
  { destruct (decide (Z.abs x = 0)) as [E | E]; [| lia].
    rewrite E in Hlog. simpl in Hlog. lia. }
  pose proof (Z.log2_spec (Z.abs x) ltac:(lia)) as [Hlow _].
  replace (52 + Z.max 0 (Z.log2 (Z.abs x) - 52)) with (Z.log2 (Z.abs x)) by lia.
  done.
Qed.

Lemma to_float64_exact x : Z.abs x ≤ 2 ^ 53 → to_float64 x = x.
Proof.
  intros Hx. unfold to_float64.
  destruct (decide (Z.abs x = 2 ^ 53)) as [Heq | Hne].
  - assert (x = 2 ^ 53 ∨ x = - 2 ^ 53) as [-> | ->] by lia;
      vm_compute; reflexivity.
  - assert (Hexp : float64_exponent x = 0).
    { unfold float64_exponent.
      destruct (decide (Z.abs x = 0)) as [-> | Hnz]; [done |].
      assert (Z.log2 (Z.abs x) < 53) by (apply Z.log2_lt_pow2; lia).
      lia. }
    rewrite float64_spacing_exponent, Hexp.
    change (2 ^ 0) with 1.
    trans (round_at 1 (x * 1)); [f_equal; lia |].
    rewrite round_at_multiple by lia. lia.
Qed.

Lemma pow2_split (a b : Z) : 0 ≤ a ≤ b → 2 ^ b = 2 ^ (b - a) * 2 ^ a.
Proof. intros H. rewrite <- Z.pow_add_r by lia. f_equal. lia. Qed.

Lemma to_float64_mono_nonneg x y :
  0 ≤ x → x ≤ y → to_float64 x ≤ to_float64 y.
Proof.
  intros Hx Hxy. unfold to_float64. rewrite !float64_spacing_exponent.
  pose proof (float64_exponent_mono x y ltac:(lia)) as He.
  pose proof (float64_exponent_nonneg x) as Hex.
  destruct (decide (float64_exponent x = float64_exponent y)) as [<- | Hne].
  - apply round_at_mono; [apply Z.pow_pos_nonneg; lia | done].
  - pose proof (float64_exponent_upper x) as Hup.
    pose proof (float64_exponent_lower y ltac:(lia)) as Hlow.
    rewrite Z.abs_eq in Hup, Hlow by lia.
    set (ex := float64_exponent x) in *. set (ey := float64_exponent y) in *.
    assert (Hmid : 2 ^ (53 + ex) ≤ 2 ^ (52 + ey))
      by (apply Z.pow_le_mono_r; lia).
    etrans; [| etrans; [exact Hmid |]].
    + rewrite (pow2_split ex (53 + ex)) by lia.
      apply round_at_le_multiple; [apply Z.pow_pos_nonneg; lia |].
      rewrite <- (pow2_split ex (53 + ex)) by lia. lia.
    + rewrite (pow2_split ey (52 + ey)) by lia.
      apply round_at_ge_multiple; [apply Z.pow_pos_nonneg; lia |].
      rewrite <- (pow2_split ey (52 + ey)) by lia. lia.
Qed.

Lemma to_float64_mono_nonpos x y :
  y ≤ 0 → x ≤ y → to_float64 x ≤ to_float64 y.
Proof.
  intros Hy Hxy. unfold to_float64. rewrite !float64_spacing_exponent.
  pose proof (float64_exponent_mono y x ltac:(lia)) as He.
  pose proof (float64_exponent_nonneg y) as Hey.
  destruct (decide (float64_exponent x = float64_exponent y)) as [<- | Hne].
  - apply round_at_mono; [apply Z.pow_pos_nonneg; lia | done].
  - pose proof (float64_exponent_upper y) as Hup.
    pose proof (float64_exponent_lower x ltac:(lia)) as Hlow.
    rewrite Z.abs_neq in Hup, Hlow by lia.
    set (ex := float64_exponent x) in *. set (ey := float64_exponent y) in *.
    assert (Hmid : 2 ^ (53 + ey) ≤ 2 ^ (52 + ex))
      by (apply Z.pow_le_mono_r; lia).
    trans (- 2 ^ (52 + ex)); [| trans (- 2 ^ (53 + ey)); [lia |]].
    + rewrite (pow2_split ex (52 + ex)) by lia.
      rewrite <- Z.mul_opp_l.
      apply round_at_le_multiple; [apply Z.pow_pos_nonneg; lia |].
      rewrite Z.mul_opp_l, <- (pow2_split ex (52 + ex)) by lia. lia.
    + rewrite (pow2_split ey (53 + ey)) by lia.
      rewrite <- Z.mul_opp_l.
      apply round_at_ge_multiple; [apply Z.pow_pos_nonneg; lia |].
      rewrite Z.mul_opp_l, <- (pow2_split ey (53 + ey)) by lia. lia.
Qed.

Lemma to_float64_zero : to_float64 0 = 0.
Proof. reflexivity. Qed.

Lemma to_float64_mono x y : x ≤ y → to_float64 x ≤ to_float64 y.
Proof.
  intros Hxy.
  destruct (decide (0 ≤ x)); [by apply to_float64_mono_nonneg |].
  destruct (decide (y ≤ 0)); [by apply to_float64_mono_nonpos |].
  trans (to_float64 0).
  - apply to_float64_mono_nonpos; lia.
  - apply to_float64_mono_nonneg; lia.
Qed.

Lemma float64_exponent_zero x : float64_exponent x = 0 → to_float64 x = x.
Proof.
  intros Hexp. unfold to_float64.
  rewrite float64_spacing_exponent, Hexp. change (2 ^ 0) with 1.
  trans (round_at 1 (x * 1)); [f_equal; lia |].
  rewrite round_at_multiple by lia. lia.
Qed.

Lemma float64_exponent_unique x e :
  0 ≤ e → 2 ^ (52 + e) ≤ Z.abs x < 2 ^ (53 + e) → float64_exponent x = e.
Proof.
  intros He Hx. unfold float64_exponent.
  rewrite (Z.log2_unique (Z.abs x) (52 + e)); [lia | lia |].
  by replace (Z.succ (52 + e)) with (53 + e) by lia.
Qed.

Lemma round_at_is_multiple q x : ∃ n, round_at q x = n * q.
Proof.
  unfold round_at, round_qr.
  repeat case_match; eauto.
Qed.

Lemma to_float64_fixed_at (e y n : Z) :
  0 ≤ e → y = n * 2 ^ e →
  2 ^ (52 + e) ≤ Z.abs y ≤ 2 ^ (53 + e) → to_float64 y = y.
Proof.
  intros He -> Hy. unfold to_float64. rewrite float64_spacing_exponent.
  destruct (decide (Z.abs (n * 2 ^ e) = 2 ^ (53 + e))) as [Htop | Hne].
  - rewrite (float64_exponent_unique _ (e + 1)); [| lia |].
    + assert (Hpow : 2 ^ (e + 1) = 2 * 2 ^ e)
        by (rewrite Z.pow_add_r by lia; lia).
      assert (H53 : 2 ^ (53 + e) = 2 ^ 52 * 2 ^ (e + 1))
        by (rewrite <- Z.pow_add_r by lia; f_equal; lia).
      assert (n * 2 ^ e = 2 ^ 52 * 2 ^ (e + 1) ∨
              n * 2 ^ e = (- 2 ^ 52) * 2 ^ (e + 1)) as [-> | ->] by lia;
        apply round_at_multiple; apply Z.pow_pos_nonneg; lia.
    + rewrite Htop. replace (52 + (e + 1)) with (53 + e) by lia.
      split; [lia |]. apply Z.pow_lt_mono_r; lia.
  - rewrite (float64_exponent_unique _ e) by lia.
    apply round_at_multiple. apply Z.pow_pos_nonneg; lia.
Qed.

(** The conversion yields a float64: converting once more changes
    nothing. *)
Lemma to_float64_idem x : to_float64 (to_float64 x) = to_float64 x.
Proof.
  destruct (decide (float64_exponent x = 0)) as [Hz | Hnz].
  { rewrite (float64_exponent_zero x Hz). by apply float64_exponent_zero. }
  pose proof (float64_exponent_nonneg x) as Hnn.
  pose proof (float64_exponent_upper x) as Hup.
  pose proof (float64_exponent_lower x ltac:(lia)) as Hlow.
  set (e := float64_exponent x) in *.
  assert (Hq : 0 < 2 ^ e) by (apply Z.pow_pos_nonneg; lia).
  destruct (round_at_is_multiple (2 ^ e) x) as [n Hn].
  apply (to_float64_fixed_at e _ n); [lia | exact Hn |].
  change (to_float64 x) with (round_at (2 ^ e) x).
  destruct (decide (0 ≤ x)).
  - rewrite Z.abs_eq in Hup, Hlow by lia.
    assert (2 ^ (52 + e) ≤ round_at (2 ^ e) x).
    { rewrite (pow2_split e (52 + e)) by lia.
      apply round_at_ge_multiple; [done |].
      rewrite <- (pow2_split e (52 + e)) by lia. lia. }
    assert (round_at (2 ^ e) x ≤ 2 ^ (53 + e)).
    { rewrite (pow2_split e (53 + e)) by lia.
      apply round_at_le_multiple; [done |].
      rewrite <- (pow2_split e (53 + e)) by lia. lia. }
    lia.
  - rewrite Z.abs_neq in Hup, Hlow by lia.
    assert (round_at (2 ^ e) x ≤ - 2 ^ (52 + e)).
    { rewrite (pow2_split e (52 + e)) by lia. rewrite <- Z.mul_opp_l.
      apply round_at_le_multiple; [done |].
      rewrite Z.mul_opp_l, <- (pow2_split e (52 + e)) by lia. lia. }
    assert (- 2 ^ (53 + e) ≤ round_at (2 ^ e) x).
    { rewrite (pow2_split e (53 + e)) by lia. rewrite <- Z.mul_opp_l.
      apply round_at_ge_multiple; [done |].
      rewrite Z.mul_opp_l, <- (pow2_split e (53 + e)) by lia. lia. }
    lia.
Qed.

(** Sums in int64 are the exact sums, wrapped once. *)
Lemma sum64_zsum (l : list Z) : sum64 l = wrap64 (zsum l).
Proof.
  induction l as [| x l IH]; simpl; [done |].
  by rewrite IH, wrap64_add_r.
Qed.

Lemma wrap64_add_l x y : wrap64 (wrap64 x + y) = wrap64 (x + y).
Proof. by rewrite (Z.add_comm (wrap64 x)), wrap64_add_r, Z.add_comm. Qed.

Lemma wrap64_zsum_map {A} (u v : A → Z) (l : list A) :
  (∀ x, In x l → wrap64 (u x) = wrap64 (v x)) →
  wrap64 (zsum (map u l)) = wrap64 (zsum (map v l)).
Proof.
  induction l as [| x l IH]; intros Huv; simpl; [done |].
  rewrite <- wrap64_add_r, IH by (intros y Hy; apply Huv; by right).
  rewrite wrap64_add_r.
  rewrite <- wrap64_add_l, (Huv x) by (by left).
  by rewrite wrap64_add_l.
Qed.

(** ** Arrays *)

Section arrays.
Implicit Types (a b : ndarray) (f g : nat → nat → Z) (i j r c : nat).

Lemma tabulate_is_matrix r c f : is_matrix r c (tabulate r c f).
Proof.
  repeat split; simpl.
  - by rewrite length_map, length_seq.
  - apply Forall_forall. intros row Hrow.
    apply list_elem_of_In, in_map_iff in Hrow as (i & <- & _).
    by rewrite length_map, length_seq.
Qed.

Lemma item_tabulate r c f i j :
  (i < r)%nat → (j < c)%nat → item (tabulate r c f) i j = f i j.
Proof.
  intros Hi Hj. unfold item, tabulate; simpl.
  rewrite (nth_indep _ [] (map (f 0%nat) (seq 0 c)))
    by (by rewrite length_map, length_seq).
  rewrite (map_nth (λ i, map (f i) (seq 0 c))), seq_nth by done.
  rewrite (nth_indep _ 0 (f i 0%nat)) by (by rewrite length_map, length_seq).
  by rewrite (map_nth (f i)), seq_nth.
Qed.

(** Two arrays of one shape with the same entries are the same array. *)
Lemma is_matrix_ext r c a b :
  is_matrix r c a → is_matrix r c b →
  (∀ i j, (i < r)%nat → (j < c)%nat → item a i j = item b i j) →
  a = b.
Proof.
  destruct a as [ra ca la], b as [rb cb lb].
  unfold is_matrix, item; simpl.
  intros (-> & -> & Hla & Fa) (-> & -> & Hlb & Fb) Hitems.
  f_equal.
  apply (nth_ext _ _ [] []); [congruence |].
  intros i Hi.
  rewrite Forall_nth in Fa, Fb.
  apply (nth_ext _ _ 0 0).
  - rewrite Fa, Fb by lia. done.
  - intros j Hj. rewrite Fa in Hj by done. apply Hitems; lia.
Qed.

Lemma update_is_matrix r c a i j v :
  is_matrix r c a → (i < r)%nat → is_matrix r c (update a i j v).
Proof.
  intros (Hr & Hc & Hl & Hf) Hi. repeat split; simpl; try done.
  - by rewrite length_insert.
  - apply Forall_insert; [done |].
    rewrite length_insert.
    rewrite Forall_nth in Hf. apply Hf. lia.
Qed.

Lemma item_update r c a i j v i' j' :
  is_matrix r c a → (i < r)%nat → (j < c)%nat →
  item (update a i j v) i' j' =
    if decide (i' = i ∧ j' = j) then v else item a i' j'.
Proof.
  intros (Hr & Hc & Hl & Hf) Hi Hj. unfold item, update; simpl.
  rewrite (Forall_nth _ []) in Hf.
  destruct (decide (i' = i)) as [-> | Hne].
  - rewrite (nth_lookup (<[i:=_]> _)), list_lookup_insert_eq by lia. simpl.
    destruct (decide (j' = j)) as [-> | Hnej].
    + rewrite decide_True by done.
      rewrite nth_lookup, list_lookup_insert_eq; [done |].
      rewrite (Hf i) by lia. done.
    + rewrite decide_False by tauto.
      by rewrite nth_lookup, list_lookup_insert_ne, <- nth_lookup.
  - rewrite decide_False by tauto.
    by rewrite (nth_lookup (<[i:=_]> _)), list_lookup_insert_ne, <- nth_lookup.
Qed.

Lemma tabulate_ext r c f g :
  (∀ i j, (i < r)%nat → (j < c)%nat → f i j = g i j) →
  tabulate r c f = tabulate r c g.
Proof.
  intros Hfg. apply (is_matrix_ext r c); try apply tabulate_is_matrix.
  intros i j Hi Hj. rewrite !item_tabulate by done. by apply Hfg.
Qed.


Lemma bigsum_add n (u v : nat → Z) :
  bigsum n (λ i, u i + v i) = bigsum n u + bigsum n v.
Proof.
  unfold bigsum. induction (seq 0 n) as [| x l IH]; simpl; [done |].
  rewrite IH. lia.
Qed.

Lemma wrap64_bigsum n (u v : nat → Z) :
  (∀ i, (i < n)%nat → wrap64 (u i) = wrap64 (v i)) →
  wrap64 (bigsum n u) = wrap64 (bigsum n v).
Proof.
  intros Huv. unfold bigsum. apply wrap64_zsum_map.
  intros i Hi%in_seq. apply Huv. lia.
Qed.

Lemma bigsum_abs n (u : nat → Z) :
  Z.abs (bigsum n u) ≤ bigsum n (λ i, Z.abs (u i)).
Proof.
  unfold bigsum. induction (seq 0 n) as [| x l IH]; simpl; lia.
Qed.

Lemma bigsum_le n (u v : nat → Z) :
  (∀ i, (i < n)%nat → u i ≤ v i) → bigsum n u ≤ bigsum n v.
Proof.
  intros Huv. unfold bigsum.
  assert (Hin : ∀ i, In i (seq 0 n) → u i ≤ v i)
    by (intros i Hi%in_seq; apply Huv; lia).
  induction (seq 0 n) as [| x l IH]; simpl; [lia |].
  pose proof (Hin x ltac:(by left)).
  pose proof (IH ltac:(intros i Hi; apply Hin; by right)). lia.
Qed.

(** [np.sum] of an array of wrapped numbers is the exact sum of the
    numbers, wrapped once. *)
Lemma np_sum_tabulate r c f :
  np_sum (tabulate r c (λ i j, wrap64 (f i j)))
  = wrap64 (bigsum r (λ i, bigsum c (f i))).
Proof.
  unfold np_sum; simpl. rewrite map_map, sum64_zsum.
  apply (wrap64_bigsum r (λ i, sum64 (map (λ j, wrap64 (f i j)) (seq 0 c)))).
  intros i Hi. rewrite sum64_zsum, wrap64_idem.
  apply (wrap64_bigsum c). intros j Hj. apply wrap64_idem.
Qed.

(** A slice that lies inside the axis. *)
Lemma slice_bounds_inside n start len :
  (start + len ≤ n)%nat →
  slice_bounds n (Z.of_nat start) (Z.of_nat start + Z.of_nat len) = (start, len).
Proof.
  intros Hle. unfold slice_bounds, slice_index.
  rewrite !(proj2 (Z.ltb_ge _ _)) by lia.
  rewrite !Z.min_l by lia. f_equal; lia.
Qed.

Lemma np_slice_inside a r0 rl c0 cl :
  (r0 + rl ≤ nrows a)%nat → (c0 + cl ≤ ncols a)%nat →
  np_slice a (Z.of_nat r0) (Z.of_nat r0 + Z.of_nat rl)
             (Z.of_nat c0) (Z.of_nat c0 + Z.of_nat cl)
  = tabulate rl cl (λ m n, item a (r0 + m) (c0 + n)).
Proof.
  intros Hr Hc. unfold np_slice. by rewrite !slice_bounds_inside.
Qed.

(** Multiplying two arrays of the same shape involves no broadcasting. *)
Lemma np_multiply_same r c f b :
  nrows b = r → ncols b = c →
  np_multiply (tabulate r c f) b
  = Ok (tabulate r c (λ i j, wrap64 (f i j * item b i j))).
Proof.
  intros Hr Hc. unfold np_multiply, broadcast_dim; simpl.
  rewrite Hr, Hc, !decide_True by done. f_equal.
  apply tabulate_ext. intros i j Hi Hj. unfold broadcast_index.
  assert (Hi' : (if decide (r = 1%nat) then 0%nat else i) = i)
    by (destruct (decide (r = 1%nat)); lia).
  assert (Hj' : (if decide (c = 1%nat) then 0%nat else j) = j)
    by (destruct (decide (c = 1%nat)); lia).
  rewrite Hi', Hj'. by rewrite item_tabulate.
Qed.

Lemma fold_left_max_spec (l : list Z) (x : Z) :
  In (fold_left Z.max l x) (x :: l) ∧
  ∀ y, In y (x :: l) → y ≤ fold_left Z.max l x.
Proof.
  revert x. induction l as [| z l IH]; intros x; simpl.
  - split; [by left |]. intros y [-> | []]. lia.
  - destruct (IH (Z.max x z)) as [Hin Hub]. split.
    + destruct Hin as [Hin | Hin]; [| by right; right].
      rewrite <- Hin. destruct (Z.max_spec x z) as [[_ ->] | [_ ->]]; auto.
    + intros y Hy.
      assert (Z.max x z ≤ fold_left Z.max l (Z.max x z))
        by (apply Hub; by left).
      destruct Hy as [-> | [-> | Hy]]; [lia | lia |].
      apply Hub. by right.
Qed.

Lemma in_concat_tabulate r c f y :
  In y (concat (rows (tabulate r c f))) ↔
  ∃ i j, (i < r)%nat ∧ (j < c)%nat ∧ y = f i j.
Proof.
  simpl. rewrite in_concat. split.
  - intros (row & Hrow & Hy).
    apply in_map_iff in Hrow as (i & <- & Hi%in_seq).
    apply in_map_iff in Hy as (j & <- & Hj%in_seq).
    exists i, j. repeat split; lia.
  - intros (i & j & Hi & Hj & ->).
    exists (map (f i) (seq 0 c)). split.
    + apply in_map_iff. exists i. split; [done |]. apply in_seq. lia.
    + apply in_map_iff. exists j. split; [done |]. apply in_seq. lia.
Qed.

(** [np.max] of a non-empty array returns an entry that bounds all
    entries. *)
Lemma np_max_tabulate r c f :
  (0 < r)%nat → (0 < c)%nat →
  ∃ v, np_max (tabulate r c f) = Ok v ∧
       (∃ i j, (i < r)%nat ∧ (j < c)%nat ∧ v = f i j) ∧
       (∀ i j, (i < r)%nat → (j < c)%nat → f i j ≤ v).
Proof.
  intros Hr Hc. unfold np_max.
  pose proof (in_concat_tabulate r c f) as Hin.
  destruct (concat (rows (tabulate r c f))) as [| x l].
  - exfalso. apply (proj2 (Hin (f 0%nat 0%nat))). by exists 0%nat, 0%nat.
  - destruct (fold_left_max_spec l x) as [Hmem Hub].
    eexists. split; [done |]. split.
    + by apply Hin.
    + intros i j Hi Hj. apply Hub, Hin. by exists i, j.
Qed.

End arrays.

(** ** Loops *)

Section loops.
Implicit Types (h : heap) (l : list Z) (body : Z → M unit).

(** A property of the heap that every pass keeps is kept by the loop,
    whether or not a pass raises. *)
Lemma for_loop_preserves (P : heap → Prop) l body :
  (∀ i h, P h → P (snd (body i h))) →
  ∀ h, P h → P (snd (for_loop l body h)).
Proof.
  intros Hbody. induction l as [| i l IH]; intros h Hh; simpl; [done |].
  unfold bind. specialize (Hbody i h Hh).
  destruct (body i h) as [[[] | e] h']; simpl in *; [by apply IH | done].
Qed.

(** Two bodies that agree wherever [P] holds give the same loop. *)
Lemma for_loop_ext (P : heap → Prop) l body1 body2 :
  (∀ i h, P h → body1 i h = body2 i h) →
  (∀ i h, P h → P (snd (body2 i h))) →
  ∀ h, P h → for_loop l body1 h = for_loop l body2 h.
Proof.
  intros Heq Hkeep. induction l as [| i l IH]; intros h Hh; simpl; [done |].
  unfold bind. rewrite (Heq i h Hh). specialize (Hkeep i h Hh).
  destruct (body2 i h) as [[[] | e] h']; simpl in *; [by apply IH | done].
Qed.

(** Two runs of a loop in related heaps: same outcome, related heaps. *)
Lemma for_loop_agree (R : heap → heap → Prop) l body1 body2 :
  (∀ i h1 h2, R h1 h2 →
     fst (body1 i h1) = fst (body2 i h2) ∧
     R (snd (body1 i h1)) (snd (body2 i h2))) →
  ∀ h1 h2, R h1 h2 →
    fst (for_loop l body1 h1) = fst (for_loop l body2 h2) ∧
    R (snd (for_loop l body1 h1)) (snd (for_loop l body2 h2)).
Proof.
  intros Hbody. induction l as [| i l IH]; intros h1 h2 HR; simpl; [done |].
  unfold bind. destruct (Hbody i h1 h2 HR) as [Hfst Hsnd].
  destruct (body1 i h1) as [[[] | e1] h1'], (body2 i h2) as [[[] | e2] h2'];
    simpl in *; try done.
  by apply IH.
Qed.

(** A loop over [range m] whose passes all succeed, with an invariant
    indexed by the number of passes made. *)
Lemma for_range_ok (Inv : nat → heap → Prop) body (m : nat) :
  (∀ i h, (i < m)%nat → Inv i h →
     ∃ h', body (Z.of_nat i) h = (Ok tt, h') ∧ Inv (S i) h') →
  ∀ h, Inv 0%nat h →
    ∃ h', for_loop (range (Z.of_nat m)) body h = (Ok tt, h') ∧ Inv m h'.
Proof.
  intros Hbody. unfold range. rewrite Nat2Z.id.
  assert (Hgen : ∀ len start h, (start + len = m)%nat → Inv start h →
    ∃ h', for_loop (map Z.of_nat (seq start len)) body h = (Ok tt, h') ∧ Inv m h').
  { induction len as [| len IH]; intros start h Hm Hinv; simpl.
    - exists h. split; [done |]. by replace m with start by lia.
    - destruct (Hbody start h) as (h1 & Hrun & Hinv1); [lia | done |].
      destruct (IH (S start) h1) as (h2 & Hrun2 & Hinv2); [lia | done |].
      exists h2. split; [| done]. unfold bind. by rewrite Hrun. }
  intros h Hinv. by apply (Hgen m 0%nat).
Qed.

End loops.

(** ** Filling the output array *)

Section fill.
Context (out : loc) (cell : Z → Z → outcome Z).

Lemma store_cell_other i j h l :
  l ≠ out → snd (store_cell out cell i j h) !! l = h !! l.
Proof.
  intros Hne. unfold store_cell, bind, lift, setitem.
  destruct (cell i j) as [v | e]; [| done].
  destruct (h !! out) as [a |]; [| done].
  destruct (axis_index (nrows a) i), (axis_index (ncols a) j); simpl; try done.
  by rewrite lookup_insert_ne.
Qed.

(** Only the output array is written. *)
Lemma fill_other n h l :
  l ≠ out → snd (fill out cell n h) !! l = h !! l.
Proof.
  intros Hne. unfold fill.
  apply (for_loop_preserves (λ h', h' !! l = h !! l)); [| done].
  intros i h1 H1.
  apply (for_loop_preserves (λ h', h' !! l = h !! l)); [| done].
  intros j h2 H2. by rewrite store_cell_other.
Qed.

Lemma store_cell_ok i j v a h (m : nat) :
  is_matrix m m a → (i < m)%nat → (j < m)%nat →
  cell (Z.of_nat i) (Z.of_nat j) = Ok v →
  store_cell out cell (Z.of_nat i) (Z.of_nat j) (<[out := a]> h)
  = (Ok tt, <[out := update a i j (to_float64 v)]> h).
Proof.
  intros (Hr & Hc & _) Hi Hj Hcell.
  unfold store_cell, bind, lift, setitem. rewrite Hcell, lookup_insert_eq.
  unfold axis_index. rewrite Hr, Hc, !decide_True by lia.
  by rewrite !Nat2Z.id, insert_insert_eq.
Qed.

(** Two nested loops over [range m] whose every pass assigns one cell
    of the output end with the output holding exactly those cells. *)
Lemma loops_filled (body : Z → Z → M unit) (stored : nat → nat → Z)
    (m : nat) h a0 :
  h !! out = Some a0 → is_matrix m m a0 →
  (∀ i j a, (i < m)%nat → (j < m)%nat → is_matrix m m a →
     body (Z.of_nat i) (Z.of_nat j) (<[out := a]> h)
     = (Ok tt, <[out := update a i j (stored i j)]> h)) →
  for_loop (range (Z.of_nat m))
    (λ i, for_loop (range (Z.of_nat m)) (λ j, body i j)) h
  = (Ok tt, <[out := tabulate m m stored]> h).
Proof.
  intros Hout Ha0 Hbody.
  pose (Inv := λ (i j : nat) (h' : heap), ∃ a,
    h' = <[out := a]> h ∧ is_matrix m m a ∧
    ∀ i' j', (i' < i ∨ i' = i ∧ j' < j)%nat → (i' < m)%nat → (j' < m)%nat →
             item a i' j' = stored i' j').
  destruct (for_range_ok (λ i, Inv i 0%nat)
    (λ i, for_loop (range (Z.of_nat m)) (λ j, body i j)) m)
    with (h := h) as (h' & Hrun & (a & -> & Ha & Hitems)).
  - intros i h1 Hi Hinv.
    destruct (for_range_ok (Inv i) (λ j, body (Z.of_nat i) j) m)
      with (h := h1) as (h2 & Hrun & (a & -> & Ha & Hitems)); [| done |].
    + intros j h2 Hj (a & -> & Ha & Hitems).
      eexists. split; [by apply Hbody |].
      exists (update a i j (stored i j)). split; [done |].
      split; [by apply update_is_matrix |].
      intros i' j' Hlt Hi' Hj'. rewrite (item_update m m) by done.
      case_decide as Heq; [by destruct Heq as [-> ->] |].
      apply Hitems; lia.
    + eexists. split; [done |]. exists a. split; [done |]. split; [done |].
      intros i' j' Hlt Hi' Hj'. apply Hitems; lia.
  - exists a0. split; [by rewrite insert_id |]. split; [done |]. lia.
  - rewrite Hrun. do 2 f_equal.
    apply (is_matrix_ext m m); [done | apply tabulate_is_matrix |].
    intros i j Hi Hj. rewrite item_tabulate by done. apply Hitems; lia.
Qed.

(** When every cell can be computed, the loops end with the output
    array holding exactly those cells, converted to float64. *)
Lemma fill_ok (m : nat) (val : nat → nat → Z) h a0 :
  h !! out = Some a0 → is_matrix m m a0 →
  (∀ i j, (i < m)%nat → (j < m)%nat →
     cell (Z.of_nat i) (Z.of_nat j) = Ok (val i j)) →
  fill out cell (Z.of_nat m) h
  = (Ok tt, <[out := tabulate m m (λ i j, to_float64 (val i j))]> h).
Proof.
  intros Hout Ha0 Hcell. unfold fill.
  apply (loops_filled (store_cell out cell) _ m h a0); [done | done |].
  intros i j a Hi Hj Ha. apply (store_cell_ok _ _ _ _ _ m); auto.
Qed.

End fill.

(** Two fills with the same cells, on output arrays that start equal,
    end alike. *)
Lemma fill_agree out1 out2 cell n h1 h2 :
  h1 !! out1 = h2 !! out2 →
  fst (fill out1 cell n h1) = fst (fill out2 cell n h2) ∧
  snd (fill out1 cell n h1) !! out1 = snd (fill out2 cell n h2) !! out2.
Proof.
  unfold fill.
  apply (for_loop_agree (λ h1 h2, h1 !! out1 = h2 !! out2)). intros i.
  apply (for_loop_agree (λ h1 h2, h1 !! out1 = h2 !! out2)). intros j k1 k2 Hk.
  unfold store_cell, bind, lift, setitem. rewrite Hk.
  destruct (cell i j) as [v | e]; [| done].
  destruct (k2 !! out2) as [a |] eqn:Hout2; simpl; [| split; congruence].
  destruct (axis_index (nrows a) i), (axis_index (ncols a) j); simpl;
    try (split; congruence).
  by rewrite !lookup_insert_eq.
Qed.

(** ** The three functions, run on a heap that holds their inputs *)

Lemma fill_ext (P : heap → Prop) out cell n (body : Z → Z → M unit) :
  (∀ i j h, P h → body i j h = store_cell out cell i j h) →
  (∀ i j h, P h → P (snd (store_cell out cell i j h))) →
  ∀ h, P h →
    for_loop (range n) (λ i, for_loop (range n) (λ j, body i j)) h
    = fill out cell n h.
Proof.
  intros Heq Hkeep. unfold fill.
  apply (for_loop_ext P).
  - intros i h Hh. apply (for_loop_ext P); [by apply Heq | by apply Hkeep | done].
  - intros i h Hh. apply (for_loop_preserves P); [by apply Hkeep | done].
Qed.

Lemma fresh_lookup (h : heap) (l : loc) (a : ndarray) :
  h !! l = Some a → l ≠ fresh (dom h).
Proof.
  intros Hl ->. apply (is_fresh (dom h)), elem_of_dom. by exists a.
Qed.

Lemma insert_fresh_extends (h : heap) a l b :
  h !! l = Some b → <[fresh (dom h) := a]> h !! l = Some b.
Proof.
  intros Hl. rewrite lookup_insert_ne; [done |]. symmetry. by eapply fresh_lookup.
Qed.

(** The loops of the two convolutions, reading the window from [src]. *)
Lemma convolution_loops src kernel out I K kernel_size n (h : heap) :
  h !! src = Some I → h !! kernel = Some K → out ≠ src → out ≠ kernel →
  for_loop (range n) (λ i,
    for_loop (range n) (λ j,
      convolution_pass getslice src kernel out kernel_size i j)) h
  = fill out (conv_cell I K kernel_size) n h.
Proof.
  intros HI HK Hsrc Hker.
  apply (fill_ext (λ h', h' !! src = Some I ∧ h' !! kernel = Some K));
    [| | done].
  - intros i j h' [HI' HK'].
    unfold convolution_pass, store_cell, conv_cell, getslice, bind, load, ret, lift.
    rewrite HI', HK'.
    by destruct (np_multiply _ K).
  - intros i j h' [HI' HK']. by rewrite !store_cell_other.
Qed.

Lemma pooling_loops image out I pool_size stride n (h : heap) :
  h !! image = Some I → out ≠ image →
  for_loop (range n) (λ i,
    for_loop (range n) (λ j,
      pooling_pass getslice image out pool_size stride i j)) h
  = fill out (pool_cell I pool_size stride) n h.
Proof.
  intros HI Himg.
  apply (fill_ext (λ h', h' !! image = Some I)); [| | done].
  - intros i j h' HI'.
    unfold pooling_pass, store_cell, pool_cell, getslice, bind, load, ret, lift.
    by rewrite HI'.
  - intros i j h' HI'. by rewrite store_cell_other.
Qed.

Section runs.
Context (h : heap).

(** The part of each function before its loops, for any slicing. *)
Lemma convolution2d_on_run slice image kernel I K :
  h !! image = Some I → h !! kernel = Some K →
  let kernel_size := Z.of_nat (nrows K) in
  let n := Z.of_nat (nrows I) - kernel_size + 1 in
  let out := fresh (dom h) in
  convolution2d_on slice image kernel h =
    if decide (n < 0) then (Raise ValueError, h)
    else finish out
           (for_loop (range n) (λ i,
              for_loop (range n) (λ j,
                convolution_pass slice image kernel out kernel_size i j))
              (<[out := zeros (Z.to_nat n) (Z.to_nat n)]> h)).
Proof.
  intros HI HK ks n out.
  unfold convolution2d_on. unfold bind at 1.
  unfold shape0 at 1, bind at 1, load at 1.
  rewrite HK. unfold ret at 1. unfold bind at 1, shape0, bind at 1, load at 1.
  rewrite HI. unfold ret at 1. fold ks. fold n.
  unfold bind at 1, np_zeros.
  destruct (decide (n < 0)) as [Hneg | Hpos].
  - by rewrite decide_True by auto.
  - rewrite decide_False by tauto. unfold alloc. fold out.
    unfold bind at 1.
    by destruct (for_loop _ _ _) as [[[] | e] h'].
Qed.

Lemma convolution2d_with_padding_on_run slice image kernel padding I K :
  h !! image = Some I → h !! kernel = Some K →
  let kernel_size := Z.of_nat (nrows K) in
  let n := Z.of_nat (nrows I) in
  let pad := fresh (dom h) in
  let h1 := <[pad := padded I (Z.to_nat padding)]> h in
  let out := fresh (dom h1) in
  convolution2d_with_padding_on slice image kernel padding h =
    if decide (padding < 0) then (Raise ValueError, h)
    else finish out
           (for_loop (range n) (λ i,
              for_loop (range n) (λ j,
                convolution_pass slice pad kernel out kernel_size i j))
              (<[out := zeros (nrows I) (nrows I)]> h1)).
Proof.
  intros HI HK ks n pad h1 out.
  unfold convolution2d_with_padding_on.
  unfold bind at 1. unfold shape0 at 1, bind at 1, load at 1.
  rewrite HK. unfold ret at 1.
  unfold bind at 1, np_pad, bind at 1, load at 1. rewrite HI.
  destruct (decide (padding < 0)) as [Hneg | Hpos]; [done |].
  unfold alloc at 1. fold pad. fold h1.
  assert (Hpad_image : pad ≠ image) by (symmetry; by eapply fresh_lookup).
  assert (HI1 : h1 !! image = Some I) by (unfold h1; by rewrite lookup_insert_ne).
  unfold bind at 1, shape0, bind at 1, load at 1. rewrite HI1.
  unfold ret at 1. fold ks. fold n.
  unfold bind at 1, np_zeros.
  rewrite decide_False by (unfold n; lia).
  unfold alloc. fold out.
  replace (Z.to_nat n) with (nrows I) by (unfold n; lia).
  unfold bind at 1.
  by destruct (for_loop _ _ _) as [[[] | e] h'].
Qed.

Lemma max_pooling2d_on_run slice image pool_size stride I :
  h !! image = Some I →
  let n := (Z.of_nat (nrows I) - pool_size) / stride + 1 in
  let out := fresh (dom h) in
  max_pooling2d_on slice image pool_size stride h =
    if decide (stride = 0) then (Raise ZeroDivisionError, h)
    else if decide (n < 0) then (Raise ValueError, h)
    else finish out
           (for_loop (range n) (λ i,
              for_loop (range n) (λ j,
                pooling_pass slice image out pool_size stride i j))
              (<[out := zeros (Z.to_nat n) (Z.to_nat n)]> h)).
Proof.
  intros HI n out.
  unfold max_pooling2d_on. unfold bind at 1.
  unfold shape0 at 1, bind at 1, load at 1.
  rewrite HI. unfold ret at 1. unfold bind at 1, lift at 1, floordiv.
  destruct (decide (stride = 0)) as [Hzero | Hnz]; [done |]. fold n.
  unfold bind at 1, np_zeros.
  destruct (decide (n < 0)) as [Hneg | Hpos].
  - by rewrite decide_True by auto.
  - rewrite decide_False by tauto. unfold alloc. fold out.
    unfold bind at 1.
    by destruct (for_loop _ _ _) as [[[] | e] h'].
Qed.

Lemma convolution2d_run image kernel I K :
  h !! image = Some I → h !! kernel = Some K →
  let kernel_size := Z.of_nat (nrows K) in
  let n := Z.of_nat (nrows I) - kernel_size + 1 in
  let out := fresh (dom h) in
  convolution2d image kernel h =
    if decide (n < 0) then (Raise ValueError, h)
    else finish out (fill out (conv_cell I K kernel_size) n
                       (<[out := zeros (Z.to_nat n) (Z.to_nat n)]> h)).
Proof.
  intros HI HK ks n out.
  unfold convolution2d. rewrite (convolution2d_on_run _ _ _ I K) by done.
  fold ks n out. case_decide; [done |].
  rewrite (convolution_loops image kernel out I K); [done | | | |].
  - rewrite lookup_insert_ne; [done |]. symmetry. by eapply fresh_lookup.
  - rewrite lookup_insert_ne; [done |]. symmetry. by eapply fresh_lookup.
  - symmetry. by eapply fresh_lookup.
  - symmetry. by eapply fresh_lookup.
Qed.

Lemma convolution2d_with_padding_run image kernel padding I K :
  h !! image = Some I → h !! kernel = Some K →
  let kernel_size := Z.of_nat (nrows K) in
  let n := Z.of_nat (nrows I) in
  let pad := fresh (dom h) in
  let h1 := <[pad := padded I (Z.to_nat padding)]> h in
  let out := fresh (dom h1) in
  convolution2d_with_padding image kernel padding h =
    if decide (padding < 0) then (Raise ValueError, h)
    else finish out
           (fill out (conv_cell (padded I (Z.to_nat padding)) K kernel_size) n
              (<[out := zeros (nrows I) (nrows I)]> h1)).
Proof.
  intros HI HK ks n pad h1 out.
  unfold convolution2d_with_padding.
  rewrite (convolution2d_with_padding_on_run _ _ _ _ I K) by done.
  fold ks n pad h1 out. case_decide; [done |].
  assert (Hpad_kernel : pad ≠ kernel) by (symmetry; by eapply fresh_lookup).
  assert (HK1 : h1 !! kernel = Some K) by (unfold h1; by rewrite lookup_insert_ne).
  assert (HP1 : h1 !! pad = Some (padded I (Z.to_nat padding)))
    by (unfold h1; by rewrite lookup_insert_eq).
  rewrite (convolution_loops pad kernel out (padded I (Z.to_nat padding)) K);
    [done | | | |].
  - rewrite lookup_insert_ne; [done |]. symmetry. by eapply fresh_lookup.
  - rewrite lookup_insert_ne; [done |]. symmetry. by eapply fresh_lookup.
  - symmetry. by eapply fresh_lookup.
  - symmetry. by eapply fresh_lookup.
Qed.

Lemma max_pooling2d_run image pool_size stride I :
  h !! image = Some I →
  let n := (Z.of_nat (nrows I) - pool_size) / stride + 1 in
  let out := fresh (dom h) in
  max_pooling2d image pool_size stride h =
    if decide (stride = 0) then (Raise ZeroDivisionError, h)
    else if decide (n < 0) then (Raise ValueError, h)
    else finish out (fill out (pool_cell I pool_size stride) n
                       (<[out := zeros (Z.to_nat n) (Z.to_nat n)]> h)).
Proof.
  intros HI n out.
  unfold max_pooling2d. rewrite (max_pooling2d_on_run _ _ _ _ I) by done.
  fold n out. repeat case_decide; try done.
  rewrite (pooling_loops image out I); [done | |].
  - rewrite lookup_insert_ne; [done |]. symmetry. by eapply fresh_lookup.
  - symmetry. by eapply fresh_lookup.
Qed.

End runs.

(** ** Well-shaped inputs: what the functions return *)

Section cells.
Implicit Types (image kernel : ndarray) (i j k p s : nat).

Lemma conv_cell_inside image kernel k i j :
  nrows kernel = k → ncols kernel = k →
  (i + k ≤ nrows image)%nat → (j + k ≤ ncols image)%nat →
  conv_cell image kernel (Z.of_nat k) (Z.of_nat i) (Z.of_nat j)
  = Ok (wrap64 (window_sum image kernel k i j)).
Proof.
  intros Hr Hc Hi Hj. unfold conv_cell.
  rewrite np_slice_inside by done.
  rewrite np_multiply_same by done.
  by rewrite (np_sum_tabulate k k
                (λ m n, item image (i + m) (j + n) * item kernel m n)).
Qed.

Lemma window_top_spec image p r c :
  (0 < p)%nat →
  np_max (tabulate p p (λ m n, item image (r + m) (c + n)))
    = Ok (window_top image p r c) ∧
  window_max image p r c (window_top image p r c).
Proof.
  intros Hp. unfold window_top, window_max.
  destruct (np_max_tabulate p p (λ m n, item image (r + m) (c + n)))
    as (v & -> & Hmem & Hub); done.
Qed.

Lemma pool_cell_inside image p s i j :
  (0 < p)%nat →
  (i * s + p ≤ nrows image)%nat → (j * s + p ≤ ncols image)%nat →
  pool_cell image (Z.of_nat p) (Z.of_nat s) (Z.of_nat i) (Z.of_nat j)
  = Ok (window_top image p (i * s) (j * s)).
Proof.
  intros Hp Hi Hj. unfold pool_cell.
  rewrite <- !Nat2Z.inj_mul.
  rewrite np_slice_inside by done.
  by apply window_top_spec.
Qed.

Lemma pooling_window_fits n p s i :
  (p ≤ n)%nat → (0 < s)%nat → (i < (n - p) / s + 1)%nat →
  (i * s + p ≤ n)%nat.
Proof.
  intros Hp Hs Hi.
  pose proof (Nat.Div0.mul_div_le (n - p) s) as Hdiv.
  nia.
Qed.

End cells.

Section returns.
Context (h : heap).

Lemma convolution2d_ok image kernel I K :
  h !! image = Some I → h !! kernel = Some K →
  nrows I = ncols I → nrows K = ncols K → (nrows K ≤ nrows I)%nat →
  convolution2d image kernel h
  = (Ok (fresh (dom h)), <[fresh (dom h) := convolved I K]> h).
Proof.
  intros HI HK HIsq HKsq Hle.
  rewrite (convolution2d_run h image kernel I K) by done.
  set (k := nrows K) in *. set (n := (nrows I - k + 1)%nat).
  replace (Z.of_nat (nrows I) - Z.of_nat k + 1) with (Z.of_nat n) by lia.
  rewrite decide_False by lia. rewrite Nat2Z.id.
  rewrite (fill_ok _ _ n (λ i j, wrap64 (window_sum I K k i j)) _ (zeros n n)).
  - unfold finish, convolved, convolved_same, pooled, stored_sum.
    by rewrite insert_insert_eq.
  - by rewrite lookup_insert_eq.
  - apply tabulate_is_matrix.
  - intros i j Hi Hj. apply conv_cell_inside; lia.
Qed.

Lemma convolution2d_with_padding_ok image kernel (p : nat) I K :
  h !! image = Some I → h !! kernel = Some K →
  nrows I = ncols I → nrows K = ncols K → (nrows K ≤ 2 * p + 1)%nat →
  let pad := fresh (dom h) in
  let h1 := <[pad := padded I p]> h in
  convolution2d_with_padding image kernel (Z.of_nat p) h
  = (Ok (fresh (dom h1)), <[fresh (dom h1) := convolved_same I K p]> h1).
Proof.
  intros HI HK HIsq HKsq Hle pad h1.
  rewrite (convolution2d_with_padding_run h image kernel _ I K) by done.
  rewrite decide_False by lia. rewrite Nat2Z.id. fold pad. fold h1.
  rewrite (fill_ok _ _ (nrows I)
             (λ i j, wrap64 (window_sum (padded I p) K (nrows K) i j))
             _ (zeros (nrows I) (nrows I))).
  - unfold finish, convolved, convolved_same, pooled, stored_sum.
    by rewrite insert_insert_eq.
  - by rewrite lookup_insert_eq.
  - apply tabulate_is_matrix.
  - intros i j Hi Hj. apply conv_cell_inside; simpl; lia.
Qed.

Lemma max_pooling2d_ok image (p s : nat) I :
  h !! image = Some I →
  nrows I = ncols I → (1 ≤ p ≤ nrows I)%nat → (1 ≤ s)%nat →
  max_pooling2d image (Z.of_nat p) (Z.of_nat s) h
  = (Ok (fresh (dom h)), <[fresh (dom h) := pooled I p s]> h).
Proof.
  intros HI HIsq Hp Hs.
  rewrite (max_pooling2d_run h image _ _ I) by done.
  rewrite decide_False by lia.
  set (n := ((nrows I - p) / s + 1)%nat).
  replace ((Z.of_nat (nrows I) - Z.of_nat p) / Z.of_nat s + 1)
    with (Z.of_nat n)
    by (unfold n; rewrite Nat2Z.inj_add, Nat2Z.inj_div, Nat2Z.inj_sub; lia).
  rewrite decide_False by lia. rewrite Nat2Z.id.
  rewrite (fill_ok _ _ n (λ i j, window_top I p (i * s) (j * s)) _ (zeros n n)).
  - unfold finish, convolved, convolved_same, pooled, stored_sum.
    by rewrite insert_insert_eq.
  - by rewrite lookup_insert_eq.
  - apply tabulate_is_matrix.
  - intros i j Hi Hj. apply pool_cell_inside; [lia | |].
    + apply pooling_window_fits; [lia | lia | done].
    + rewrite <- HIsq. apply pooling_window_fits; [lia | lia | done].
Qed.

End returns.

(** ** Functional correctness *)

Lemma result_insert (h : heap) l a : result (Ok l, <[l := a]> h) = Ok a.
Proof. unfold result. by rewrite lookup_insert_eq. Qed.

Lemma fresh_None (h : heap) : h !! fresh (dom h) = None.
Proof. apply not_elem_of_dom, is_fresh. Qed.

Lemma input_image_is_matrix : is_matrix 5 5 input_image.
Proof. repeat split. repeat constructor. Qed.

Lemma filter_kernel_is_matrix : is_matrix 3 3 filter_kernel.
Proof. repeat split. repeat constructor. Qed.

(** Where the absolute values of the products of a window sum to at
    most 2^53, neither the int64 arithmetic nor the conversion to
    float64 changes the window sum. *)
Lemma window_sum_abs I K (k i j : nat) :
  Z.abs (window_sum I K k i j) ≤ abs_window_sum I K k i j.
Proof.
  unfold window_sum, abs_window_sum.
  etrans; [apply bigsum_abs |].
  apply bigsum_le. intros m Hm. apply bigsum_abs.
Qed.

Lemma stored_sum_exact I K (k i j : nat) :
  abs_window_sum I K k i j ≤ 2 ^ 53 →
  stored_sum I K k i j = window_sum I K k i j.
Proof.
  intros Hbound. pose proof (window_sum_abs I K k i j) as Habs.
  unfold stored_sum.
  rewrite wrap64_small by lia. apply to_float64_exact. lia.
Qed.

(** C1 fails as stated.  The 1-by-1 image [[2^62]] and kernel [[4]] are
    square, the kernel is no larger than the image, and the window sum
    is 2^64; the int64 product wraps around and [convolution2d] returns
    [[0]]. *)
Lemma convolution2d_wraps_around :
  overflow_heap !! 1%positive = Some overflow_image ∧
  overflow_heap !! 2%positive = Some overflow_kernel ∧
  is_int64 overflow_image = true ∧ is_int64 overflow_kernel = true ∧
  is_matrix 1 1 overflow_image ∧ is_matrix 1 1 overflow_kernel ∧
  (1 ≤ 1)%nat ∧
  result (convolution2d 1%positive 2%positive overflow_heap)
    = Ok (np_array [[0]]) ∧
  bigsum 1 (λ m, bigsum 1 (λ n,
    item overflow_image (0 + m) (0 + n) * item overflow_kernel m n))
    = 2 ^ 64.
Proof.
  repeat (split; [reflexivity |]).
  split; [repeat split; repeat constructor |].
  split; [repeat split; repeat constructor |].
  split; [lia |].
  split; vm_compute; reflexivity.
Qed.

(** C1, amended.  For an N-by-N image and a k-by-k kernel with k <= N,
    both int64 arrays, such that in every window the absolute values of
    the products image[i+m][j+n] * kernel[m][n] sum to at most 2^53,
    [convolution2d] returns a new (N-k+1)-by-(N-k+1) array whose cell (i, j) is the sum
    over m, n < k of image[i+m][j+n] * kernel[m][n]. *)
Theorem convolution2d_window_sum (h : heap) image kernel I K (N k : nat) :
  h !! image = Some I → h !! kernel = Some K →
  is_int64 I = true → is_int64 K = true →
  is_matrix N N I → is_matrix k k K → (k ≤ N)%nat →
  (∀ i j, (i < N - k + 1)%nat → (j < N - k + 1)%nat →
     bigsum k (λ m, bigsum k (λ n,
       Z.abs (item I (i + m) (j + n) * item K m n))) ≤ 2 ^ 53) →
  ∃ out O,
    convolution2d image kernel h = (Ok out, <[out := O]> h) ∧
    h !! out = None ∧
    is_matrix (N - k + 1) (N - k + 1) O ∧
    ∀ i j, (i < N - k + 1)%nat → (j < N - k + 1)%nat →
      item O i j =
        bigsum k (λ m, bigsum k (λ n, item I (i + m) (j + n) * item K m n)).
Proof.
  intros HI HK _ _ (HIr & HIc & _) (HKr & HKc & _) Hle Hbound.
  exists (fresh (dom h)), (convolved I K).
  split; [apply convolution2d_ok; (done || lia) |].
  split; [apply fresh_None |].
  unfold convolved. rewrite HIr, HKr.
  split; [apply tabulate_is_matrix |].
  intros i j Hi Hj. rewrite item_tabulate by done.
  apply stored_sum_exact. by apply Hbound.
Qed.

Lemma convolution2d_window_sum_witness :
  ∃ out O,
    convolution2d 1%positive 2%positive demo_heap
      = (Ok out, <[out := O]> demo_heap) ∧
    demo_heap !! out = None ∧
    is_matrix (5 - 3 + 1) (5 - 3 + 1) O ∧
    ∀ i j, (i < 5 - 3 + 1)%nat → (j < 5 - 3 + 1)%nat →
      item O i j =
        bigsum 3 (λ m, bigsum 3 (λ n,
          item input_image (i + m) (j + n) * item filter_kernel m n)).
Proof.
  apply (convolution2d_window_sum demo_heap 1%positive 2%positive
           input_image filter_kernel 5 3).
  - reflexivity.
  - reflexivity.
  - reflexivity.
  - reflexivity.
  - apply input_image_is_matrix.
  - apply filter_kernel_is_matrix.
  - lia.
  - intros i j Hi Hj. below i; below j; vm_compute; discriminate.
Defined.

(** C2 fails as stated.  On the 1-by-1 image [[2^53 + 1]] with pool
    size 1 and stride 1, [max_pooling2d] returns [[2^53]]: the maximum
    is rounded when it is stored in the float64 output, and the cell is
    not an entry of its window. *)
Lemma max_pooling2d_rounds_the_maximum :
  odd_heap !! 1%positive = Some odd_image ∧
  is_int64 odd_image = true ∧
  is_matrix 1 1 odd_image ∧ (1 ≤ 1 ≤ 1)%nat ∧
  result (max_pooling2d 1%positive 1 1 odd_heap) = Ok (np_array [[2 ^ 53]]) ∧
  ¬ window_max odd_image 1 (0 * 1) (0 * 1) (2 ^ 53).
Proof.
  split; [reflexivity |].
  split; [reflexivity |].
  split; [repeat split; repeat constructor |].
  split; [lia |].
  split; [vm_compute; reflexivity |].
  intros [(m & n & Hm & Hn & Heq) _].
  below m; below n. vm_compute in Heq. discriminate.
Qed.

(** C2, amended.  For an N-by-N int64 image, a pool size p with
    1 <= p <= N and a stride s >= 1, [max_pooling2d] returns a new M-by-M array with
    M = (N - p) div s + 1, whose cell (i, j) is the maximum of the
    p-by-p window of the image with top left corner (i*s, j*s),
    converted to float64; it is that maximum itself when its magnitude
    is at most 2^53. *)
Theorem max_pooling2d_window_max (h : heap) image I (N p s : nat) :
  h !! image = Some I → is_int64 I = true → is_matrix N N I →
  (1 ≤ p ≤ N)%nat → (1 ≤ s)%nat →
  ∃ out O,
    max_pooling2d image (Z.of_nat p) (Z.of_nat s) h
      = (Ok out, <[out := O]> h) ∧
    h !! out = None ∧
    is_matrix ((N - p) / s + 1) ((N - p) / s + 1) O ∧
    ∀ i j, (i < (N - p) / s + 1)%nat → (j < (N - p) / s + 1)%nat →
      ∃ v, window_max I p (i * s) (j * s) v ∧
           item O i j = to_float64 v ∧
           (Z.abs v ≤ 2 ^ 53 → item O i j = v).
Proof.
  intros HI _ (HIr & HIc & _) Hp Hs.
  exists (fresh (dom h)), (pooled I p s).
  split; [apply max_pooling2d_ok; (done || lia) |].
  split; [apply fresh_None |].
  unfold pooled. rewrite HIr.
  split; [apply tabulate_is_matrix |].
  intros i j Hi Hj. rewrite item_tabulate by done.
  exists (window_top I p (i * s) (j * s)).
  split; [apply window_top_spec; lia |].
  split; [done | apply to_float64_exact].
Qed.

Lemma max_pooling2d_window_max_witness :
  ∃ out O,
    max_pooling2d 1%positive (Z.of_nat 2) (Z.of_nat 2) demo_heap
      = (Ok out, <[out := O]> demo_heap) ∧
    demo_heap !! out = None ∧
    is_matrix ((5 - 2) / 2 + 1) ((5 - 2) / 2 + 1) O ∧
    ∀ i j, (i < (5 - 2) / 2 + 1)%nat → (j < (5 - 2) / 2 + 1)%nat →
      ∃ v, window_max input_image 2 (i * 2) (j * 2) v ∧
           item O i j = to_float64 v ∧
           (Z.abs v ≤ 2 ^ 53 → item O i j = v).
Proof.
  apply (max_pooling2d_window_max demo_heap 1%positive input_image 5 2 2).
  - reflexivity.
  - reflexivity.
  - apply input_image_is_matrix.
  - lia.
  - lia.
Defined.

(** ** The notebook's printed results *)

(** C3. On the notebook's 5-by-5 input and 3-by-3 vertical-edge
    kernel, [convolution2d] returns a 3-by-3 array whose cells are all
    -6. *)
Theorem convolution2d_notebook_output (h : heap) image kernel :
  h !! image = Some input_image → h !! kernel = Some filter_kernel →
  result (convolution2d image kernel h)
  = Ok (np_array [[-6; -6; -6];
                  [-6; -6; -6];
                  [-6; -6; -6]]).
Proof.
  intros HI HK.
  rewrite (convolution2d_ok h image kernel input_image filter_kernel)
    by (done || (simpl; lia)).
  rewrite result_insert. vm_compute. reflexivity.
Qed.

Lemma convolution2d_notebook_output_witness :
  result (convolution2d 1%positive 2%positive demo_heap)
  = Ok (np_array [[-6; -6; -6];
                  [-6; -6; -6];
                  [-6; -6; -6]]).
Proof.
  apply (convolution2d_notebook_output demo_heap 1%positive 2%positive);
    reflexivity.
Defined.

(** C4. On the same input and kernel, [convolution2d_with_padding] with
    padding 1 returns the 5-by-5 array printed in the notebook. *)
Theorem convolution2d_with_padding_notebook_output (h : heap) image kernel :
  h !! image = Some input_image → h !! kernel = Some filter_kernel →
  result (convolution2d_with_padding image kernel 1 h)
  = Ok (np_array [[-9; -4; -4; -4; 13];
                  [-21; -6; -6; -6; 27];
                  [-36; -6; -6; -6; 42];
                  [-51; -6; -6; -6; 57];
                  [-39; -4; -4; -4; 43]]).
Proof.
  intros HI HK.
  change 1 with (Z.of_nat 1).
  rewrite (convolution2d_with_padding_ok h image kernel 1
             input_image filter_kernel) by (done || (simpl; lia)).
  rewrite result_insert. vm_compute. reflexivity.
Qed.

Lemma convolution2d_with_padding_notebook_output_witness :
  result (convolution2d_with_padding 1%positive 2%positive 1 demo_heap)
  = Ok (np_array [[-9; -4; -4; -4; 13];
                  [-21; -6; -6; -6; 27];
                  [-36; -6; -6; -6; 42];
                  [-51; -6; -6; -6; 57];
                  [-39; -4; -4; -4; 43]]).
Proof.
  apply (convolution2d_with_padding_notebook_output
           demo_heap 1%positive 2%positive); reflexivity.
Defined.

(** C5. On the notebook's 5-by-5 input, [max_pooling2d] with pool size 2
    and stride 2 returns [[7, 9], [17, 19]]. *)
Theorem max_pooling2d_notebook_output (h : heap) image :
  h !! image = Some input_image →
  result (max_pooling2d image 2 2 h)
  = Ok (np_array [[7; 9];
                  [17; 19]]).
Proof.
  intros HI.
  change 2 with (Z.of_nat 2).
  rewrite (max_pooling2d_ok h image 2 2 input_image)
    by (done || (simpl; lia)).
  rewrite result_insert. vm_compute. reflexivity.
Qed.

Lemma max_pooling2d_notebook_output_witness :
  result (max_pooling2d 1%positive 2 2 demo_heap)
  = Ok (np_array [[7; 9];
                  [17; 19]]).
Proof.
  apply (max_pooling2d_notebook_output demo_heap 1%positive); reflexivity.
Defined.

(** ** Ill-shaped calls raise as numpy does *)

(** A stride of zero: [//] raises before anything is allocated. *)
Example max_pooling2d_zero_stride :
  max_pooling2d 1%positive 2 0 demo_heap = (Raise ZeroDivisionError, demo_heap).
Proof. reflexivity. Qed.

(** A kernel larger than the image by two or more: [np.zeros] is asked
    for a negative size. *)
Example convolution2d_kernel_too_large :
  convolution2d 2%positive 1%positive demo_heap = (Raise ValueError, demo_heap).
Proof. reflexivity. Qed.

(** A pool window of size zero: [np.max] of an empty window. *)
Example max_pooling2d_empty_window :
  fst (max_pooling2d 1%positive 0 2 demo_heap) = Raise ValueError.
Proof. vm_compute. reflexivity. Qed.

(** ** No error on well-shaped inputs *)

(** C6, as stated, fails: the notebook's image with a 5-by-5 kernel is a
    square image with a square kernel no larger than the image, yet
    [convolution2d_with_padding] with its default padding 1 raises
    ValueError, because the window at column 3 of the 7-by-7 padded
    image is clipped to 4 columns and cannot be multiplied by the
    kernel. *)
Lemma convolution2d_with_padding_wide_kernel_raises :
  is_matrix 5 5 input_image ∧ is_matrix 5 5 wide_kernel ∧ (5 ≤ 5)%nat ∧
  wide_heap !! 1%positive = Some input_image ∧
  wide_heap !! 2%positive = Some wide_kernel ∧
  fst (convolution2d_with_padding 1%positive 2%positive 1 wide_heap)
  = Raise ValueError.
Proof.
  split; [apply input_image_is_matrix |].
  split; [apply tabulate_is_matrix |].
  split; [lia |].
  split; [reflexivity |].
  split; [reflexivity |].
  vm_compute. reflexivity.
Qed.

Lemma getslice_checked_within (h : heap) l a r0 r1 c0 c1 :
  h !! l = Some a → window_within a r0 r1 c0 c1 →
  getslice_checked l r0 r1 c0 c1 h = getslice l r0 r1 c0 c1 h.
Proof.
  intros Hl Hin. unfold getslice_checked, getslice, bind, load.
  rewrite Hl. by rewrite decide_True.
Qed.

(** One pass of the convolution loops on a window that lies inside the
    array, with either slicing. *)
Lemma convolution_pass_ok slice src kernel out I K (k m i j : nat) a (h : heap) :
  slice = getslice ∨ slice = getslice_checked →
  h !! src = Some I → h !! kernel = Some K → out ≠ src → out ≠ kernel →
  nrows K = k → ncols K = k →
  (i + k ≤ nrows I)%nat → (j + k ≤ ncols I)%nat →
  is_matrix m m a → (i < m)%nat → (j < m)%nat →
  convolution_pass slice src kernel out
    (Z.of_nat k) (Z.of_nat i) (Z.of_nat j) (<[out := a]> h)
  = (Ok tt, <[out := update a i j (stored_sum I K k i j)]> h).
Proof.
  intros Hslice HI HK Hsrc Hker HKr HKc Hi Hj Ha Him Hjm.
  assert (HI' : <[out := a]> h !! src = Some I) by (by rewrite lookup_insert_ne).
  assert (HK' : <[out := a]> h !! kernel = Some K)
    by (by rewrite lookup_insert_ne).
  assert (Hpass :
    convolution_pass slice src kernel out
      (Z.of_nat k) (Z.of_nat i) (Z.of_nat j) (<[out := a]> h)
    = store_cell out (conv_cell I K (Z.of_nat k))
        (Z.of_nat i) (Z.of_nat j) (<[out := a]> h)).
  { unfold convolution_pass. unfold bind at 1.
    destruct Hslice as [-> | ->].
    - unfold store_cell, conv_cell, getslice, bind, load, ret, lift.
      rewrite HI', HK'. by destruct (np_multiply _ K).
    - rewrite (getslice_checked_within _ _ I) by
        (done || (unfold window_within, slice_within; lia)).
      unfold store_cell, conv_cell, getslice, bind, load, ret, lift.
      rewrite HI', HK'. by destruct (np_multiply _ K). }
  rewrite Hpass.
  rewrite (store_cell_ok _ _ _ _ (wrap64 (window_sum I K k i j)) _ _ m);
    [done | done | done | done |].
  by apply conv_cell_inside.
Qed.

Lemma pooling_pass_ok slice image out I (p s m i j : nat) a (h : heap) :
  slice = getslice ∨ slice = getslice_checked →
  h !! image = Some I → out ≠ image →
  (0 < p)%nat →
  (i * s + p ≤ nrows I)%nat → (j * s + p ≤ ncols I)%nat →
  is_matrix m m a → (i < m)%nat → (j < m)%nat →
  pooling_pass slice image out
    (Z.of_nat p) (Z.of_nat s) (Z.of_nat i) (Z.of_nat j) (<[out := a]> h)
  = (Ok tt,
     <[out := update a i j (to_float64 (window_top I p (i * s) (j * s)))]> h).
Proof.
  intros Hslice HI Himg Hp Hi Hj Ha Him Hjm.
  assert (HI' : <[out := a]> h !! image = Some I)
    by (by rewrite lookup_insert_ne).
  assert (Hpass :
    pooling_pass slice image out
      (Z.of_nat p) (Z.of_nat s) (Z.of_nat i) (Z.of_nat j) (<[out := a]> h)
    = store_cell out (pool_cell I (Z.of_nat p) (Z.of_nat s))
        (Z.of_nat i) (Z.of_nat j) (<[out := a]> h)).
  { unfold pooling_pass. unfold bind at 1.
    destruct Hslice as [-> | ->].
    - unfold store_cell, pool_cell, getslice, bind, load, ret, lift.
      by rewrite HI'.
    - rewrite (getslice_checked_within _ _ I) by
        (done || (unfold window_within, slice_within; nia)).
      unfold store_cell, pool_cell, getslice, bind, load, ret, lift.
      by rewrite HI'. }
  rewrite Hpass.
  rewrite (store_cell_ok _ _ _ _ (window_top I p (i * s) (j * s)) _ _ m);
    [done | done | done | done |].
  by apply pool_cell_inside.
Qed.

Section returns_on.
Context (h : heap) (slice : slicing).
Hypothesis Hslice : slice = getslice ∨ slice = getslice_checked.

(** On well-shaped inputs the bounds-checked slicing changes nothing. *)
Lemma convolution2d_on_ok image kernel I K :
  h !! image = Some I → h !! kernel = Some K →
  (nrows I ≤ ncols I)%nat → nrows K = ncols K → (nrows K ≤ nrows I)%nat →
  convolution2d_on slice image kernel h
  = (Ok (fresh (dom h)), <[fresh (dom h) := convolved I K]> h).
Proof.
  intros HI HK HIsq HKsq Hle.
  rewrite (convolution2d_on_run h slice image kernel I K) by done.
  set (k := nrows K) in *. set (n := (nrows I - k + 1)%nat).
  replace (Z.of_nat (nrows I) - Z.of_nat k + 1) with (Z.of_nat n) by lia.
  rewrite decide_False by lia. rewrite Nat2Z.id.
  set (out := fresh (dom h)).
  assert (out ≠ image) by (symmetry; by eapply fresh_lookup).
  assert (out ≠ kernel) by (symmetry; by eapply fresh_lookup).
  rewrite (loops_filled out
             (convolution_pass slice image kernel out (Z.of_nat k))
             (stored_sum I K k) n _ (zeros n n)).
  - unfold finish, convolved. by rewrite insert_insert_eq.
  - by rewrite lookup_insert_eq.
  - apply tabulate_is_matrix.
  - intros i j a Hi Hj Ha.
    apply (convolution_pass_ok slice image kernel out I K k n);
      try done; try lia; by rewrite lookup_insert_ne.
Qed.

Lemma convolution2d_with_padding_on_ok image kernel (p : nat) I K :
  h !! image = Some I → h !! kernel = Some K →
  nrows I = ncols I → nrows K = ncols K → (nrows K ≤ 2 * p + 1)%nat →
  let pad := fresh (dom h) in
  let h1 := <[pad := padded I p]> h in
  convolution2d_with_padding_on slice image kernel (Z.of_nat p) h
  = (Ok (fresh (dom h1)), <[fresh (dom h1) := convolved_same I K p]> h1).
Proof.
  intros HI HK HIsq HKsq Hle pad h1.
  rewrite (convolution2d_with_padding_on_run h slice image kernel _ I K)
    by done.
  rewrite decide_False by lia. rewrite Nat2Z.id. fold pad. fold h1.
  set (out := fresh (dom h1)).
  assert (HP1 : h1 !! pad = Some (padded I p))
    by (unfold h1; by rewrite lookup_insert_eq).
  assert (HK1 : h1 !! kernel = Some K) by (by apply insert_fresh_extends).
  assert (out ≠ pad) by (symmetry; by eapply fresh_lookup).
  assert (out ≠ kernel) by (symmetry; by eapply fresh_lookup).
  rewrite (loops_filled out
             (convolution_pass slice pad kernel out (Z.of_nat (nrows K)))
             (stored_sum (padded I p) K (nrows K)) (nrows I) _
             (zeros (nrows I) (nrows I))).
  - unfold finish, convolved_same. by rewrite insert_insert_eq.
  - by rewrite lookup_insert_eq.
  - apply tabulate_is_matrix.
  - intros i j a Hi Hj Ha.
    apply (convolution_pass_ok slice pad kernel out (padded I p) K
             (nrows K) (nrows I));
      try done; try (simpl; lia); by rewrite lookup_insert_ne.
Qed.

Lemma max_pooling2d_on_ok image (p s : nat) I :
  h !! image = Some I →
  (nrows I ≤ ncols I)%nat → (1 ≤ p ≤ nrows I)%nat → (1 ≤ s)%nat →
  max_pooling2d_on slice image (Z.of_nat p) (Z.of_nat s) h
  = (Ok (fresh (dom h)), <[fresh (dom h) := pooled I p s]> h).
Proof.
  intros HI HIsq Hp Hs.
  rewrite (max_pooling2d_on_run h slice image _ _ I) by done.
  rewrite decide_False by lia.
  set (n := ((nrows I - p) / s + 1)%nat).
  replace ((Z.of_nat (nrows I) - Z.of_nat p) / Z.of_nat s + 1)
    with (Z.of_nat n)
    by (unfold n; rewrite Nat2Z.inj_add, Nat2Z.inj_div, Nat2Z.inj_sub; lia).
  rewrite decide_False by lia. rewrite Nat2Z.id.
  set (out := fresh (dom h)).
  assert (out ≠ image) by (symmetry; by eapply fresh_lookup).
  rewrite (loops_filled out
             (pooling_pass slice image out (Z.of_nat p) (Z.of_nat s))
             (λ i j, to_float64 (window_top I p (i * s) (j * s))) n _
             (zeros n n)).
  - unfold finish, pooled. by rewrite insert_insert_eq.
  - by rewrite lookup_insert_eq.
  - apply tabulate_is_matrix.
  - intros i j a Hi Hj Ha.
    assert (i * s + p ≤ nrows I)%nat
      by (apply pooling_window_fits; [lia | lia | done]).
    assert (j * s + p ≤ nrows I)%nat
      by (apply pooling_window_fits; [lia | lia | done]).
    apply (pooling_pass_ok slice image out I p s n);
      try done; try lia; by rewrite lookup_insert_ne.
Qed.

End returns_on.

(** C6, amended.  For a square N-by-N image and a square k-by-k kernel
    no larger than the image, both int64 arrays, a padding p >= 0 with k <= 2p + 1, a pool
    size between 1 and N and a stride >= 1: none of the three functions
    raises, each returns an array, and every array access it performs
    is within bounds: the same function run with the bounds-checked
    slicing, which raises IndexError on any window that does not lie
    inside its array, returns the same array in the same heap (the item
    assignments are bounds-checked in both). *)
Theorem well_shaped_calls_return (h : heap) image kernel I K
    (N k p pool_size stride : nat) :
  h !! image = Some I → h !! kernel = Some K →
  is_int64 I = true → is_int64 K = true →
  is_matrix N N I → is_matrix k k K → (k ≤ N)%nat →
  (k ≤ 2 * p + 1)%nat →
  (1 ≤ pool_size ≤ N)%nat → (1 ≤ stride)%nat →
  (∃ out h',
     convolution2d image kernel h = (Ok out, h') ∧
     convolution2d_on getslice_checked image kernel h = (Ok out, h')) ∧
  (∃ out h',
     convolution2d_with_padding image kernel (Z.of_nat p) h = (Ok out, h') ∧
     convolution2d_with_padding_on getslice_checked image kernel (Z.of_nat p) h
       = (Ok out, h')) ∧
  (∃ out h',
     max_pooling2d image (Z.of_nat pool_size) (Z.of_nat stride) h
       = (Ok out, h') ∧
     max_pooling2d_on getslice_checked image
       (Z.of_nat pool_size) (Z.of_nat stride) h = (Ok out, h')).
Proof.
  intros HI HK _ _ (HIr & HIc & _) (HKr & HKc & _) Hle Hpad Hpool Hstride.
  split; [| split].
  - do 2 eexists. split.
    + apply convolution2d_ok; (done || lia).
    + apply convolution2d_on_ok; (by right) || done || lia.
  - do 2 eexists. split.
    + apply convolution2d_with_padding_ok; (done || lia).
    + apply convolution2d_with_padding_on_ok; (by right) || done || lia.
  - do 2 eexists. split.
    + apply max_pooling2d_ok; (done || lia).
    + apply max_pooling2d_on_ok; (by right) || done || lia.
Qed.

Lemma well_shaped_calls_return_witness :
  (∃ out h',
     convolution2d 1%positive 2%positive demo_heap = (Ok out, h') ∧
     convolution2d_on getslice_checked 1%positive 2%positive demo_heap
       = (Ok out, h')) ∧
  (∃ out h',
     convolution2d_with_padding 1%positive 2%positive (Z.of_nat 1) demo_heap
       = (Ok out, h') ∧
     convolution2d_with_padding_on getslice_checked
       1%positive 2%positive (Z.of_nat 1) demo_heap = (Ok out, h')) ∧
  (∃ out h',
     max_pooling2d 1%positive (Z.of_nat 2) (Z.of_nat 2) demo_heap
       = (Ok out, h') ∧
     max_pooling2d_on getslice_checked 1%positive (Z.of_nat 2) (Z.of_nat 2)
       demo_heap = (Ok out, h')).
Proof.
  apply (well_shaped_calls_return demo_heap 1%positive 2%positive
           input_image filter_kernel 5 3 1 2 2).
  - reflexivity.
  - reflexivity.
  - reflexivity.
  - reflexivity.
  - apply input_image_is_matrix.
  - apply filter_kernel_is_matrix.
  - lia.
  - lia.
  - lia.
  - lia.
Defined.

(** ** Frame: the inputs are left alone *)

Lemma frame_preserved_raise (h : heap) e : frame_preserved h (Raise e, h).
Proof. split; simpl; [done | discriminate]. Qed.

(** Filling a new output array on top of a heap that extends [h]. *)
Lemma frame_preserved_fill (h h1 : heap) out cell n :
  (∀ l a, h !! l = Some a → h1 !! l = Some a) → h !! out = None →
  frame_preserved h (finish out (fill out cell n h1)).
Proof.
  intros Hext Hout. split.
  - intros l a Hl.
    assert (l ≠ out) by congruence.
    replace (snd (finish out (fill out cell n h1)))
      with (snd (fill out cell n h1))
      by (by destruct (fill out cell n h1) as [[[] | e] h']).
    rewrite fill_other by done. by apply Hext.
  - intros out'. destruct (fill out cell n h1) as [[[] | e] h']; simpl;
      congruence.
Qed.

Lemma convolution2d_frame (h : heap) image kernel :
  frame_preserved h (convolution2d image kernel h).
Proof.
  destruct (h !! kernel) as [K |] eqn:HK; cycle 1.
  { unfold convolution2d, convolution2d_on, bind, shape0, bind, load.
    rewrite HK. apply frame_preserved_raise. }
  destruct (h !! image) as [I |] eqn:HI; cycle 1.
  { unfold convolution2d, convolution2d_on, bind, shape0, bind, load, ret.
    rewrite HK, HI. apply frame_preserved_raise. }
  rewrite (convolution2d_run h image kernel I K) by done.
  case_decide; [apply frame_preserved_raise |].
  apply frame_preserved_fill; [| apply fresh_None].
  intros l a. apply insert_fresh_extends.
Qed.

Lemma convolution2d_with_padding_frame (h : heap) image kernel padding :
  frame_preserved h (convolution2d_with_padding image kernel padding h).
Proof.
  destruct (h !! kernel) as [K |] eqn:HK; cycle 1.
  { unfold convolution2d_with_padding, convolution2d_with_padding_on,
      bind, shape0, bind, load.
    rewrite HK. apply frame_preserved_raise. }
  destruct (h !! image) as [I |] eqn:HI; cycle 1.
  { unfold convolution2d_with_padding, convolution2d_with_padding_on,
      bind, shape0, np_pad, bind, load, ret.
    rewrite HK, HI. apply frame_preserved_raise. }
  rewrite (convolution2d_with_padding_run h image kernel padding I K) by done.
  case_decide; [apply frame_preserved_raise |].
  set (h1 := <[fresh (dom h) := padded I (Z.to_nat padding)]> h).
  assert (Hout : h1 !! fresh (dom h1) = None) by apply fresh_None.
  apply lookup_insert_None in Hout as [Hout _].
  apply frame_preserved_fill; [| done].
  intros l a Hl. apply insert_fresh_extends. by apply insert_fresh_extends.
Qed.

Lemma max_pooling2d_frame (h : heap) image pool_size stride :
  frame_preserved h (max_pooling2d image pool_size stride h).
Proof.
  destruct (h !! image) as [I |] eqn:HI; cycle 1.
  { unfold max_pooling2d, max_pooling2d_on, bind, shape0, bind, load.
    rewrite HI. apply frame_preserved_raise. }
  rewrite (max_pooling2d_run h image pool_size stride I) by done.
  repeat case_decide; try apply frame_preserved_raise.
  apply frame_preserved_fill; [| apply fresh_None].
  intros l a. apply insert_fresh_extends.
Qed.

(** C7. Whatever the arguments, a call of [convolution2d],
    [convolution2d_with_padding] or [max_pooling2d] leaves every array
    that existed before the call, the image and the kernel among them,
    with the contents it had; the array it returns is a new one. *)
Theorem calls_leave_inputs_unchanged (h : heap) image kernel
    (padding pool_size stride : Z) :
  frame_preserved h (convolution2d image kernel h) ∧
  frame_preserved h (convolution2d_with_padding image kernel padding h) ∧
  frame_preserved h (max_pooling2d image pool_size stride h).
Proof.
  split; [apply convolution2d_frame |].
  split; [apply convolution2d_with_padding_frame | apply max_pooling2d_frame].
Qed.

(** ** Determinism *)

Lemma finish_fill_agree out1 out2 cell n (h1 h2 : heap) :
  h1 !! out1 = h2 !! out2 →
  result (finish out1 (fill out1 cell n h1))
  = result (finish out2 (fill out2 cell n h2)).
Proof.
  intros Hout. destruct (fill_agree out1 out2 cell n h1 h2 Hout) as [Hfst Hsnd].
  destruct (fill out1 cell n h1) as [[[] | e1] k1],
           (fill out2 cell n h2) as [[[] | e2] k2]; simpl in *;
    try congruence.
  by rewrite Hsnd.
Qed.

Section two_runs.
Context (h1 h2 : heap) (image1 image2 : loc) (I : ndarray).
Hypothesis HI1 : h1 !! image1 = Some I.
Hypothesis HI2 : h2 !! image2 = Some I.

Lemma max_pooling2d_agree pool_size stride :
  result (max_pooling2d image1 pool_size stride h1)
  = result (max_pooling2d image2 pool_size stride h2).
Proof.
  rewrite (max_pooling2d_run h1 image1 pool_size stride I) by done.
  rewrite (max_pooling2d_run h2 image2 pool_size stride I) by done.
  repeat case_decide; try done.
  apply finish_fill_agree. by rewrite !lookup_insert_eq.
Qed.

Context (kernel1 kernel2 : loc) (K : ndarray).
Hypothesis HK1 : h1 !! kernel1 = Some K.
Hypothesis HK2 : h2 !! kernel2 = Some K.

Lemma convolution2d_agree :
  result (convolution2d image1 kernel1 h1)
  = result (convolution2d image2 kernel2 h2).
Proof.
  rewrite (convolution2d_run h1 image1 kernel1 I K) by done.
  rewrite (convolution2d_run h2 image2 kernel2 I K) by done.
  case_decide; [done |].
  apply finish_fill_agree. by rewrite !lookup_insert_eq.
Qed.

Lemma convolution2d_with_padding_agree padding :
  result (convolution2d_with_padding image1 kernel1 padding h1)
  = result (convolution2d_with_padding image2 kernel2 padding h2).
Proof.
  rewrite (convolution2d_with_padding_run h1 image1 kernel1 padding I K)
    by done.
  rewrite (convolution2d_with_padding_run h2 image2 kernel2 padding I K)
    by done.
  case_decide; [done |].
  apply finish_fill_agree. by rewrite !lookup_insert_eq.
Qed.

End two_runs.

(** C8. Two calls on equal inputs have equal outcomes: if the image and
    the kernel of one call hold the same arrays as those of the other,
    and the integer arguments are the same, then both calls raise the
    same exception or return arrays with the same contents, whatever
    else the two heaps contain and wherever the arrays are stored. *)
Theorem calls_are_deterministic (h1 h2 : heap) image1 image2 kernel1 kernel2
    (I K : ndarray) (padding pool_size stride : Z) :
  h1 !! image1 = Some I → h2 !! image2 = Some I →
  h1 !! kernel1 = Some K → h2 !! kernel2 = Some K →
  result (convolution2d image1 kernel1 h1)
    = result (convolution2d image2 kernel2 h2) ∧
  result (convolution2d_with_padding image1 kernel1 padding h1)
    = result (convolution2d_with_padding image2 kernel2 padding h2) ∧
  result (max_pooling2d image1 pool_size stride h1)
    = result (max_pooling2d image2 pool_size stride h2).
Proof.
  intros HI1 HI2 HK1 HK2.
  split; [by apply (convolution2d_agree _ _ _ _ I HI1 HI2 _ _ K) |].
  split; [by apply (convolution2d_with_padding_agree _ _ _ _ I HI1 HI2 _ _ K) |].
  by apply (max_pooling2d_agree _ _ _ _ I).
Qed.

Lemma calls_are_deterministic_witness :
  result (convolution2d 1%positive 2%positive demo_heap)
    = result (convolution2d 7%positive 5%positive other_heap) ∧
  result (convolution2d_with_padding 1%positive 2%positive 1 demo_heap)
    = result (convolution2d_with_padding 7%positive 5%positive 1 other_heap) ∧
  result (max_pooling2d 1%positive 2 2 demo_heap)
    = result (max_pooling2d 7%positive 2 2 other_heap).
Proof.
  apply (calls_are_deterministic demo_heap other_heap 1%positive 7%positive
           2%positive 5%positive input_image filter_kernel 1 2 2);
    reflexivity.
Defined.

(** ** Additivity in the kernel *)

Lemma abs_window_sum_nonneg I K (k i j : nat) : 0 ≤ abs_window_sum I K k i j.
Proof. pose proof (window_sum_abs I K k i j). lia. Qed.

(** The window sum against the int64 sum of two kernels, in int64. *)
Lemma wrap64_window_sum_add I K1 K2 (k i j : nat) :
  nrows K1 = k → ncols K1 = k →
  wrap64 (window_sum I (int64_add K1 K2) k i j)
  = wrap64 (window_sum I K1 k i j + window_sum I K2 k i j).
Proof.
  intros Hr Hc. unfold window_sum, int64_add. rewrite Hr, Hc.
  rewrite <- bigsum_add.
  apply wrap64_bigsum. intros m Hm. rewrite <- bigsum_add.
  apply wrap64_bigsum. intros n Hn.
  rewrite item_tabulate by done. rewrite wrap64_mul_r. f_equal. lia.
Qed.

(** C9 fails as stated.  With the image [[1]] and the kernels
    [[2^53 + 1]] and [[1]], the feature map of the sum of the kernels is
    [[2^53 + 2]], while the feature maps of the two kernels are [[2^53]]
    (rounded when stored) and [[1]], whose float64 sum is [[2^53]]. *)
Lemma convolution2d_additivity_fails_by_rounding :
  rounding_heap !! 1%positive = Some one_image ∧
  rounding_heap !! 2%positive = Some odd_kernel ∧
  rounding_heap !! 3%positive = Some one_kernel ∧
  rounding_heap !! 4%positive = Some (int64_add odd_kernel one_kernel) ∧
  is_int64 one_image = true ∧ is_int64 odd_kernel = true ∧
  is_int64 one_kernel = true ∧
  is_matrix 1 1 one_image ∧ is_matrix 1 1 odd_kernel ∧
  is_matrix 1 1 one_kernel ∧
  result (convolution2d 1%positive 2%positive rounding_heap)
    = Ok (np_array [[2 ^ 53]]) ∧
  result (convolution2d 1%positive 3%positive rounding_heap)
    = Ok (np_array [[1]]) ∧
  result (convolution2d 1%positive 4%positive rounding_heap)
    = Ok (np_array [[2 ^ 53 + 2]]) ∧
  float64_add (np_array [[2 ^ 53]]) (np_array [[1]]) = np_array [[2 ^ 53]] ∧
  np_array [[2 ^ 53 + 2]] ≠ np_array [[2 ^ 53]].
Proof.
  repeat (split; [reflexivity |]).
  split; [repeat split; repeat constructor |].
  split; [repeat split; repeat constructor |].
  split; [repeat split; repeat constructor |].
  repeat (split; [vm_compute; reflexivity |]).
  vm_compute. discriminate.
Qed.

(** C9, amended.  [convolution2d] is additive in the kernel where the
    arithmetic is exact: for an N-by-N image and two k-by-k kernels K1
    and K2 with k <= N, all int64 arrays, such that, in every window, the absolute values
    of the products with K1 and of the products with K2 together sum to
    at most 2^53, the feature map of the kernel K1 + K2 is the cell-wise
    sum of the feature maps of K1 and of K2. *)
Theorem convolution2d_additive (h : heap) image kernel1 kernel2 kernel12
    I K1 K2 (N k : nat) :
  h !! image = Some I →
  h !! kernel1 = Some K1 → h !! kernel2 = Some K2 →
  h !! kernel12 = Some (int64_add K1 K2) →
  is_int64 I = true → is_int64 K1 = true → is_int64 K2 = true →
  is_matrix N N I → is_matrix k k K1 → is_matrix k k K2 → (k ≤ N)%nat →
  (∀ i j, (i < N - k + 1)%nat → (j < N - k + 1)%nat →
     abs_window_sum I K1 k i j + abs_window_sum I K2 k i j ≤ 2 ^ 53) →
  ∃ O1 O2,
    result (convolution2d image kernel1 h) = Ok O1 ∧
    result (convolution2d image kernel2 h) = Ok O2 ∧
    result (convolution2d image kernel12 h) = Ok (float64_add O1 O2).
Proof.
  intros HI H1 H2 H12 _ _ _ (HIr & HIc & _) (Hr1 & Hc1 & _) (Hr2 & Hc2 & _) Hle
    Hbound.
  exists (convolved I K1), (convolved I K2).
  rewrite (convolution2d_ok h image kernel1 I K1) by (done || lia).
  rewrite (convolution2d_ok h image kernel2 I K2) by (done || lia).
  rewrite (convolution2d_ok h image kernel12 I (int64_add K1 K2))
    by (done || (simpl; lia)).
  rewrite !result_insert. split; [done |]. split; [done |]. f_equal.
  unfold convolved, float64_add. simpl nrows. simpl ncols.
  rewrite HIr, Hr1, Hr2.
  apply tabulate_ext. intros i j Hi Hj.
  rewrite !item_tabulate by done.
  specialize (Hbound i j Hi Hj).
  pose proof (abs_window_sum_nonneg I K1 k i j).
  pose proof (abs_window_sum_nonneg I K2 k i j).
  pose proof (window_sum_abs I K1 k i j).
  pose proof (window_sum_abs I K2 k i j).
  rewrite (stored_sum_exact I K1), (stored_sum_exact I K2) by lia.
  unfold stored_sum. rewrite (wrap64_window_sum_add I K1 K2 k) by done.
  rewrite wrap64_small by lia. done.
Qed.

Lemma convolution2d_additive_witness :
  ∃ O1 O2,
    result (convolution2d 1%positive 2%positive sum_heap) = Ok O1 ∧
    result (convolution2d 1%positive 2%positive sum_heap) = Ok O2 ∧
    result (convolution2d 1%positive 3%positive sum_heap)
      = Ok (float64_add O1 O2).
Proof.
  apply (convolution2d_additive sum_heap 1%positive 2%positive 2%positive
           3%positive input_image filter_kernel filter_kernel 5 3).
  - reflexivity.
  - reflexivity.
  - reflexivity.
  - reflexivity.
  - reflexivity.
  - reflexivity.
  - reflexivity.
  - apply input_image_is_matrix.
  - apply filter_kernel_is_matrix.
  - apply filter_kernel_is_matrix.
  - lia.
  - intros i j Hi Hj. below i; below j; vm_compute; discriminate.
Defined.

(** ** Padding against plain convolution of the padded image *)

Lemma axis_index_lt (n : nat) (i : Z) (i' : nat) :
  axis_index n i = Some i' → (i' < n)%nat.
Proof.
  unfold axis_index. repeat case_decide; intros [= <-]; lia.
Qed.

(** The loops never change the shape of the output array. *)
Lemma fill_keeps_shape out cell n (r c : nat) (h : heap) :
  (∃ a, h !! out = Some a ∧ is_matrix r c a) →
  ∃ a, snd (fill out cell n h) !! out = Some a ∧ is_matrix r c a.
Proof.
  unfold fill.
  apply (for_loop_preserves (λ h', ∃ a, h' !! out = Some a ∧ is_matrix r c a)).
  intros i.
  apply (for_loop_preserves (λ h', ∃ a, h' !! out = Some a ∧ is_matrix r c a)).
  intros j h' (a & Ha & Hshape).
  unfold store_cell, bind, lift, setitem.
  destruct (cell i j) as [v | e]; [| by exists a].
  rewrite Ha.
  destruct (axis_index (nrows a) i) as [i' |] eqn:Hi; [| by exists a].
  destruct (axis_index (ncols a) j) as [j' |] eqn:Hj; [| by exists a].
  simpl. exists (update a i' j' (to_float64 v)).
  rewrite lookup_insert_eq. split; [done |].
  apply update_is_matrix; [done |].
  apply axis_index_lt in Hi. destruct Hshape as (<- & _). done.
Qed.

(** Whatever the kernel and the padding, an array returned by
    [convolution2d_with_padding] has the shape of the image. *)
Lemma convolution2d_with_padding_shape (h : heap) image kernel padding I K O :
  h !! image = Some I → h !! kernel = Some K →
  result (convolution2d_with_padding image kernel padding h) = Ok O →
  is_matrix (nrows I) (nrows I) O.
Proof.
  intros HI HK.
  rewrite (convolution2d_with_padding_run h image kernel padding I K) by done.
  case_decide; [done |].
  set (h1 := <[fresh (dom h) := padded I (Z.to_nat padding)]> h).
  set (out := fresh (dom h1)).
  destruct (fill_keeps_shape out
              (conv_cell (padded I (Z.to_nat padding)) K (Z.of_nat (nrows K)))
              (Z.of_nat (nrows I)) (nrows I) (nrows I)
              (<[out := zeros (nrows I) (nrows I)]> h1))
    as (a & Ha & Hshape).
  { eexists. split; [by rewrite lookup_insert_eq | apply tabulate_is_matrix]. }
  destruct (fill out _ _ _) as [[[] | e] h']; simpl in *; [| done].
  rewrite Ha. by intros [= <-].
Qed.

(** [convolution2d(np.pad(image, p), kernel)] on well-shaped inputs. *)
Lemma convolution2d_of_padded (h : heap) image kernel I K (p : nat) :
  h !! image = Some I → h !! kernel = Some K →
  nrows I = ncols I → nrows K = ncols K → (nrows K ≤ nrows I)%nat →
  result ((padded_image <- np_pad image (Z.of_nat p) ;;
           convolution2d padded_image kernel) h)
  = Ok (convolved (padded I p) K).
Proof.
  intros HI HK HIsq HKsq Hle.
  unfold bind at 1, np_pad, bind at 1, load at 1. rewrite HI.
  rewrite decide_False by lia. rewrite Nat2Z.id. unfold alloc.
  rewrite (convolution2d_ok _ _ kernel (padded I p) K).
  - apply result_insert.
  - by rewrite lookup_insert_eq.
  - by apply insert_fresh_extends.
  - simpl. lia.
  - done.
  - simpl. lia.
Qed.

(** C10. For an N-by-N image, a k-by-k kernel with k <= N and a padding
    p >= 0: when 2p = k - 1 (so k is odd), [convolution2d_with_padding]
    returns the same array as [convolution2d] applied to the image
    zero-padded by p on every side, and that array is N-by-N.  The
    padded variant returns an N-by-N array whenever it returns at all,
    so when 2p differs from k - 1 the two calls do not agree. *)
Theorem padding_agrees_with_convolution_of_padded (h : heap) image kernel I K
    (N k p : nat) :
  h !! image = Some I → h !! kernel = Some K →
  is_matrix N N I → is_matrix k k K → (k ≤ N)%nat →
  let with_padding :=
    result (convolution2d_with_padding image kernel (Z.of_nat p) h) in
  let of_padded :=
    result ((padded_image <- np_pad image (Z.of_nat p) ;;
             convolution2d padded_image kernel) h) in
  ((2 * p + 1)%nat = k →
     ∃ O, with_padding = Ok O ∧ of_padded = Ok O ∧ is_matrix N N O) ∧
  (∀ O, with_padding = Ok O → is_matrix N N O) ∧
  ((2 * p + 1)%nat ≠ k → with_padding ≠ of_padded).
Proof.
  intros HI HK (HIr & HIc & _) (HKr & HKc & _) Hle with_padding of_padded.
  assert (Hof : of_padded = Ok (convolved (padded I p) K)).
  { apply convolution2d_of_padded; (done || lia). }
  assert (Hshape : ∀ O, with_padding = Ok O → is_matrix N N O).
  { intros O HO. rewrite <- HIr.
    by apply (convolution2d_with_padding_shape h image kernel (Z.of_nat p) I K). }
  split; [| split; [done |]].
  - intros Hsame. exists (convolved_same I K p).
    assert (Hwith : with_padding = Ok (convolved_same I K p)).
    { unfold with_padding.
      rewrite (convolution2d_with_padding_ok h image kernel p I K)
        by (done || lia).
      apply result_insert. }
    split; [done |]. split; [| by apply Hshape].
    rewrite Hof. f_equal. unfold convolved, convolved_same. simpl.
    by replace (nrows I + (p + (p + 0)) - nrows K + 1)%nat with (nrows I) by lia.
  - intros Hdiff Heq. rewrite Hof in Heq.
    destruct (Hshape _ Heq) as (Hrows & _).
    unfold convolved in Hrows. simpl in Hrows. lia.
Qed.

Lemma padding_agrees_with_convolution_of_padded_witness :
  ∃ O,
    result (convolution2d_with_padding 1%positive 2%positive (Z.of_nat 1)
              demo_heap) = Ok O ∧
    result ((padded_image <- np_pad 1%positive (Z.of_nat 1) ;;
             convolution2d padded_image 2%positive) demo_heap) = Ok O ∧
    is_matrix 5 5 O.
Proof.
  destruct (padding_agrees_with_convolution_of_padded demo_heap
              1%positive 2%positive input_image filter_kernel 5 3 1)
    as (Hagree & _).
  - reflexivity.
  - reflexivity.
  - apply input_image_is_matrix.
  - apply filter_kernel_is_matrix.
  - lia.
  - apply Hagree. reflexivity.
Defined.

(** * Further properties of the three functions *)

(** ** Where the size checks raise, and where they return nothing *)

Lemma fill_nothing out cell (h : heap) : fill out cell 0 h = (Ok tt, h).
Proof. reflexivity. Qed.

Lemma convolution2d_no_cells (h : heap) image kernel I K :
  h !! image = Some I → h !! kernel = Some K →
  nrows K = (nrows I + 1)%nat →
  convolution2d image kernel h
  = (Ok (fresh (dom h)), <[fresh (dom h) := np_array []]> h).
Proof.
  intros HI HK Hone.
  rewrite (convolution2d_run h image kernel I K) by done.
  replace (Z.of_nat (nrows I) - Z.of_nat (nrows K) + 1) with 0 by lia.
  rewrite decide_False by lia.
  by rewrite fill_nothing.
Qed.

Lemma max_pooling2d_no_cells (h : heap) image I (pool_size stride : Z) :
  h !! image = Some I →
  1 ≤ stride →
  Z.of_nat (nrows I) < pool_size ≤ Z.of_nat (nrows I) + stride →
  max_pooling2d image pool_size stride h
  = (Ok (fresh (dom h)), <[fresh (dom h) := np_array []]> h).
Proof.
  intros HI Hs Hp.
  rewrite (max_pooling2d_run h image pool_size stride I) by done.
  rewrite decide_False by lia.
  assert (Hq : (Z.of_nat (nrows I) - pool_size) / stride = -1).
  { symmetry.
    apply (Z.div_unique_pos _ _ _ (Z.of_nat (nrows I) - pool_size + stride));
      lia. }
  rewrite Hq. change (-1 + 1) with 0.
  rewrite decide_False by lia.
  by rewrite fill_nothing.
Qed.

(** X1. A kernel with at least two more rows than the image makes
    [convolution2d] raise ValueError ([np.zeros] is asked for a negative
    size) before anything is allocated: the heap is as it was. *)
Theorem convolution2d_raises_on_large_kernel (h : heap) image kernel I K :
  h !! image = Some I → h !! kernel = Some K →
  (nrows I + 2 ≤ nrows K)%nat →
  convolution2d image kernel h = (Raise ValueError, h).
Proof.
  intros HI HK Hlarge.
  rewrite (convolution2d_run h image kernel I K) by done.
  by rewrite decide_True by lia.
Qed.

Lemma convolution2d_raises_on_large_kernel_witness :
  convolution2d 2%positive 1%positive demo_heap = (Raise ValueError, demo_heap).
Proof.
  apply (convolution2d_raises_on_large_kernel demo_heap 2%positive 1%positive
           filter_kernel input_image).
  - reflexivity.
  - reflexivity.
  - simpl. lia.
Defined.

(** X2. A kernel with exactly one more row than the image raises
    nothing: [convolution2d] returns a new empty array of shape (0, 0). *)
Theorem convolution2d_empty_on_kernel_one_larger (h : heap) image kernel I K :
  h !! image = Some I → h !! kernel = Some K →
  nrows K = (nrows I + 1)%nat →
  convolution2d image kernel h
  = (Ok (fresh (dom h)), <[fresh (dom h) := np_array []]> h).
Proof. apply convolution2d_no_cells. Qed.

Lemma convolution2d_empty_on_kernel_one_larger_witness :
  convolution2d 1%positive 2%positive small_heap
  = (Ok (fresh (dom small_heap)),
     <[fresh (dom small_heap) := np_array []]> small_heap).
Proof.
  apply (convolution2d_empty_on_kernel_one_larger small_heap
           1%positive 2%positive small_image filter_kernel);
    reflexivity.
Defined.

(** X3. A stride of zero makes [max_pooling2d] raise ZeroDivisionError,
    whatever the image and the pool size, with the heap as it was. *)
Theorem max_pooling2d_raises_on_zero_stride (h : heap) image I pool_size :
  h !! image = Some I →
  max_pooling2d image pool_size 0 h = (Raise ZeroDivisionError, h).
Proof.
  intros HI.
  rewrite (max_pooling2d_run h image pool_size 0 I) by done.
  by rewrite decide_True.
Qed.

Lemma max_pooling2d_raises_on_zero_stride_witness :
  max_pooling2d 1%positive 2 0 demo_heap = (Raise ZeroDivisionError, demo_heap).
Proof.
  apply (max_pooling2d_raises_on_zero_stride demo_heap 1%positive input_image).
  reflexivity.
Defined.

(** X4. With a stride s >= 1, a pool size larger than the number of
    rows of the image plus s makes [max_pooling2d] raise ValueError (a
    negative output size), with the heap as it was. *)
Theorem max_pooling2d_raises_on_large_window (h : heap) image I
    (pool_size stride : Z) :
  h !! image = Some I →
  1 ≤ stride → Z.of_nat (nrows I) + stride < pool_size →
  max_pooling2d image pool_size stride h = (Raise ValueError, h).
Proof.
  intros HI Hs Hp.
  rewrite (max_pooling2d_run h image pool_size stride I) by done.
  rewrite decide_False by lia.
  assert ((Z.of_nat (nrows I) - pool_size) / stride < -1)
    by (apply Z.div_lt_upper_bound; lia).
  by rewrite decide_True by lia.
Qed.

Lemma max_pooling2d_raises_on_large_window_witness :
  max_pooling2d 1%positive 8 2 demo_heap = (Raise ValueError, demo_heap).
Proof.
  apply (max_pooling2d_raises_on_large_window demo_heap 1%positive input_image).
  - reflexivity.
  - lia.
  - simpl. lia.
Defined.

(** X5. With a stride s >= 1, a pool size above the number N of rows
    of the image but at most N + s raises nothing: [max_pooling2d]
    returns a new empty array of shape (0, 0). *)
Theorem max_pooling2d_empty_on_window_just_too_large (h : heap) image I
    (pool_size stride : Z) :
  h !! image = Some I →
  1 ≤ stride →
  Z.of_nat (nrows I) < pool_size ≤ Z.of_nat (nrows I) + stride →
  max_pooling2d image pool_size stride h
  = (Ok (fresh (dom h)), <[fresh (dom h) := np_array []]> h).
Proof. apply max_pooling2d_no_cells. Qed.

Lemma max_pooling2d_empty_on_window_just_too_large_witness :
  max_pooling2d 1%positive 6 2 demo_heap
  = (Ok (fresh (dom demo_heap)),
     <[fresh (dom demo_heap) := np_array []]> demo_heap).
Proof.
  apply (max_pooling2d_empty_on_window_just_too_large demo_heap
           1%positive input_image).
  - reflexivity.
  - lia.
  - simpl. lia.
Defined.

(** X6. A negative padding makes [convolution2d_with_padding] raise
    ValueError (from [np.pad]), with the heap as it was. *)
Theorem convolution2d_with_padding_raises_on_negative_padding
    (h : heap) image kernel I K (padding : Z) :
  h !! image = Some I → h !! kernel = Some K →
  padding < 0 →
  convolution2d_with_padding image kernel padding h = (Raise ValueError, h).
Proof.
  intros HI HK Hneg.
  rewrite (convolution2d_with_padding_run h image kernel padding I K) by done.
  by rewrite decide_True.
Qed.

Lemma convolution2d_with_padding_raises_on_negative_padding_witness :
  convolution2d_with_padding 1%positive 2%positive (-1) demo_heap
  = (Raise ValueError, demo_heap).
Proof.
  apply (convolution2d_with_padding_raises_on_negative_padding demo_heap
           1%positive 2%positive input_image filter_kernel).
  - reflexivity.
  - reflexivity.
  - lia.
Defined.

(** ** Loops that raise part of the way *)

Lemma for_loop_app (l1 l2 : list Z) (body : Z → M unit) (h : heap) :
  for_loop (l1 ++ l2) body h =
  match for_loop l1 body h with
  | (Ok _, h') => for_loop l2 body h'
  | (Raise e, h') => (Raise e, h')
  end.
Proof.
  revert h. induction l1 as [| i l1 IH]; intros h; simpl; [done |].
  unfold bind. destruct (body i h) as [[[] | e] h']; [apply IH | done].
Qed.

Lemma range_split (m i0 : nat) :
  (i0 < m)%nat →
  range (Z.of_nat m)
  = range (Z.of_nat i0) ++ Z.of_nat i0 :: map Z.of_nat (seq (S i0) (m - S i0)).
Proof.
  intros Hlt. unfold range. rewrite !Nat2Z.id.
  replace m with (i0 + S (m - S i0))%nat at 1 by lia.
  by rewrite seq_app, map_app.
Qed.

(** A loop over [range m] whose passes succeed up to pass [i0], which
    raises. *)
Lemma for_range_raise (Inv : nat → heap → Prop) (body : Z → M unit)
    (m i0 : nat) (e : exn) :
  (i0 < m)%nat →
  (∀ i h, (i < i0)%nat → Inv i h →
     ∃ h', body (Z.of_nat i) h = (Ok tt, h') ∧ Inv (S i) h') →
  (∀ h, Inv i0 h → fst (body (Z.of_nat i0) h) = Raise e) →
  ∀ h, Inv 0%nat h → fst (for_loop (range (Z.of_nat m)) body h) = Raise e.
Proof.
  intros Hlt Hbefore Hat h Hinv.
  rewrite (range_split m i0), for_loop_app by done.
  destruct (for_range_ok Inv body i0 Hbefore h Hinv) as (h' & -> & Hinv').
  simpl. unfold bind. specialize (Hat h' Hinv').
  destruct (body (Z.of_nat i0) h') as [[[] | e'] h'']; simpl in *; congruence.
Qed.

(** The loops raise at the first cell, in row-major order, that cannot
    be computed. *)
Lemma fill_raises out cell (m i0 j0 : nat) (e : exn) (h : heap) a0 :
  h !! out = Some a0 → is_matrix m m a0 →
  (i0 < m)%nat → (j0 < m)%nat →
  (∀ i j, (i < i0 ∨ i = i0 ∧ j < j0)%nat → (i < m)%nat → (j < m)%nat →
     ∃ v, cell (Z.of_nat i) (Z.of_nat j) = Ok v) →
  cell (Z.of_nat i0) (Z.of_nat j0) = Raise e →
  fst (fill out cell (Z.of_nat m) h) = Raise e.
Proof.
  intros Hout Ha0 Hi0 Hj0 Hbefore Hat. unfold fill.
  pose (Inv := λ (_ : nat) (h' : heap), ∃ a,
    h' = <[out := a]> h ∧ is_matrix m m a).
  assert (Hstep : ∀ i j h', (i < i0 ∨ i = i0 ∧ j < j0)%nat →
            (i < m)%nat → (j < m)%nat → Inv j h' →
            ∃ h'', store_cell out cell (Z.of_nat i) (Z.of_nat j) h'
                   = (Ok tt, h'') ∧ Inv (S j) h'').
  { intros i j h' Hlt Hi Hj (a & -> & Ha).
    destruct (Hbefore i j Hlt Hi Hj) as [v Hv].
    eexists. split; [by apply (store_cell_ok _ _ _ _ v _ _ m) |].
    exists (update a i j (to_float64 v)).
    split; [done | by apply update_is_matrix]. }
  apply (for_range_raise Inv _ m i0 e); [done | | |].
  - intros i h1 Hi Hinv.
    destruct (for_range_ok Inv (λ j, store_cell out cell (Z.of_nat i) j) m)
      with (h := h1) as (h2 & Hrun & Hinv2); [| done |].
    + intros j h2 Hj Hinv2. apply Hstep; (done || lia).
    + by exists h2.
  - intros h1 Hinv.
    apply (for_range_raise Inv _ m j0 e); [done | | | done].
    + intros j h2 Hj Hinv2. apply Hstep; (done || lia).
    + intros h2 _. unfold store_cell, bind, lift. by rewrite Hat.
  - exists a0. split; [by rewrite insert_id | done].
Qed.

(** ** Windows that are clipped or empty *)

Lemma finish_raises out (r : outcome unit * heap) e :
  fst r = Raise e → fst (finish out r) = Raise e.
Proof. destruct r as [[[] | e'] h']; simpl; congruence. Qed.

(** A slice that starts inside the axis and ends beyond it is clipped
    to the end of the axis. *)
Lemma slice_bounds_clipped (n : nat) (start stop : Z) :
  0 ≤ start ≤ Z.of_nat n → Z.of_nat n ≤ stop →
  slice_bounds n start stop = (Z.to_nat start, (n - Z.to_nat start)%nat).
Proof.
  intros Hstart Hstop. unfold slice_bounds, slice_index.
  rewrite !(proj2 (Z.ltb_ge _ _)) by lia.
  rewrite Z.min_l, Z.min_r by lia. f_equal. lia.
Qed.

Lemma ncols_np_slice a r0 r1 c0 c1 :
  ncols (np_slice a r0 r1 c0 c1) = snd (slice_bounds (ncols a) c0 c1).
Proof.
  unfold np_slice.
  by destruct (slice_bounds (nrows a) r0 r1), (slice_bounds (ncols a) c0 c1).
Qed.


Lemma broadcast_dim_None (m n : nat) :
  m ≠ n → m ≠ 1%nat → n ≠ 1%nat → broadcast_dim m n = None.
Proof.
  intros Hmn Hm Hn. unfold broadcast_dim. by rewrite !decide_False.
Qed.

Lemma np_multiply_raises a b :
  broadcast_dim (ncols a) (ncols b) = None →
  np_multiply a b = Raise ValueError.
Proof.
  intros Hcols. unfold np_multiply. rewrite Hcols.
  by destruct (broadcast_dim (nrows a) (nrows b)).
Qed.

(** A window of no rows has no maximum. *)
Lemma np_max_no_rows a r c0 c1 :
  np_max (np_slice a r r c0 c1) = Raise ValueError.
Proof.
  unfold np_slice, slice_bounds. rewrite Nat.sub_diag.
  by destruct (slice_index (ncols a) c0, (slice_index (ncols a) c1
                 - slice_index (ncols a) c0)%nat).
Qed.

(** X7. A pool size of zero with a stride s >= 1 makes [max_pooling2d]
    raise ValueError on every image: the first window is empty and
    [np.max] has nothing to return. *)
Theorem max_pooling2d_raises_on_empty_window (h : heap) image I (stride : Z) :
  h !! image = Some I → 1 ≤ stride →
  fst (max_pooling2d image 0 stride h) = Raise ValueError.
Proof.
  intros HI Hs.
  rewrite (max_pooling2d_run h image 0 stride I) by done.
  rewrite decide_False by lia.
  set (n := (Z.of_nat (nrows I) - 0) / stride + 1).
  assert (Hn : 1 ≤ n).
  { unfold n. assert (0 ≤ (Z.of_nat (nrows I) - 0) / stride)
      by (apply Z.div_pos; lia). lia. }
  rewrite decide_False by lia.
  apply finish_raises.
  rewrite <- (Z2Nat.id n) at 1 by lia.
  apply (fill_raises _ _ (Z.to_nat n) 0 0 ValueError _
           (zeros (Z.to_nat n) (Z.to_nat n))).
  - by rewrite lookup_insert_eq.
  - apply tabulate_is_matrix.
  - lia.
  - lia.
  - intros i j Hlt. lia.
  - unfold pool_cell. rewrite Z.add_0_r. apply np_max_no_rows.
Qed.

Lemma max_pooling2d_raises_on_empty_window_witness :
  fst (max_pooling2d 1%positive 0 2 demo_heap) = Raise ValueError.
Proof.
  apply (max_pooling2d_raises_on_empty_window demo_heap 1%positive input_image).
  - reflexivity.
  - lia.
Defined.

(** X8. When the kernel does not fit the padding, the padded variant
    raises.  For an N-by-N image with N >= 1, a k-by-k kernel with
    k >= 3 and a padding p >= 0 with 2p + 1 < k and N + 2p >= 2,
    [convolution2d_with_padding] raises ValueError: in the first row of
    the output a window is clipped to between 2 and k - 1 columns and
    cannot be multiplied by the kernel. *)
Theorem convolution2d_with_padding_raises_on_misfit (h : heap) image kernel
    I K (N k p : nat) :
  h !! image = Some I → h !! kernel = Some K →
  is_matrix N N I → is_matrix k k K →
  (3 ≤ k)%nat → (2 * p + 1 < k)%nat → (1 ≤ N)%nat → (2 ≤ N + 2 * p)%nat →
  fst (convolution2d_with_padding image kernel (Z.of_nat p) h)
  = Raise ValueError.
Proof.
  intros HI HK (HIr & HIc & _) (HKr & HKc & _) Hk Hmisfit HN Hwide.
  rewrite (convolution2d_with_padding_run h image kernel _ I K) by done.
  rewrite decide_False by lia. rewrite Nat2Z.id, HIr, HKr.
  apply finish_raises.
  apply (fill_raises _ _ N 0 (N + 2 * p + 1 - k) ValueError _ (zeros N N)).
  - by rewrite lookup_insert_eq.
  - apply tabulate_is_matrix.
  - lia.
  - lia.
  - intros i j Hlt Hi Hj. eexists.
    apply conv_cell_inside; simpl; lia.
  - unfold conv_cell. rewrite np_multiply_raises; [done |].
    rewrite ncols_np_slice, HKc. simpl ncols.
    rewrite slice_bounds_clipped by lia. simpl snd.
    apply broadcast_dim_None; lia.
Qed.

Lemma convolution2d_with_padding_raises_on_misfit_witness :
  fst (convolution2d_with_padding 1%positive 2%positive (Z.of_nat 0) demo_heap)
  = Raise ValueError.
Proof.
  apply (convolution2d_with_padding_raises_on_misfit demo_heap
           1%positive 2%positive input_image filter_kernel 5 3 0).
  - reflexivity.
  - reflexivity.
  - apply input_image_is_matrix.
  - apply filter_kernel_is_matrix.
  - lia.
  - lia.
  - lia.
  - lia.
Defined.

(** ** The padded variant when the padding is more than the kernel needs *)

Lemma convolution2d_ok_wide (h : heap) image kernel I K :
  h !! image = Some I → h !! kernel = Some K →
  (nrows I ≤ ncols I)%nat → nrows K = ncols K → (nrows K ≤ nrows I)%nat →
  convolution2d image kernel h
  = (Ok (fresh (dom h)), <[fresh (dom h) := convolved I K]> h).
Proof. apply (convolution2d_on_ok h getslice). by left. Qed.

Lemma convolution2d_of_padded_fits (h : heap) image kernel I K (p : nat) :
  h !! image = Some I → h !! kernel = Some K →
  nrows I = ncols I → nrows K = ncols K → (nrows K ≤ nrows I + 2 * p)%nat →
  result ((padded_image <- np_pad image (Z.of_nat p) ;;
           convolution2d padded_image kernel) h)
  = Ok (convolved (padded I p) K).
Proof.
  intros HI HK HIsq HKsq Hle.
  unfold bind at 1, np_pad, bind at 1, load at 1. rewrite HI.
  rewrite decide_False by lia. rewrite Nat2Z.id. unfold alloc.
  rewrite (convolution2d_ok_wide _ _ kernel (padded I p) K).
  - apply result_insert.
  - by rewrite lookup_insert_eq.
  - by apply insert_fresh_extends.
  - simpl. lia.
  - done.
  - simpl. lia.
Qed.

(** X9. For an N-by-N image with N >= 1, a k-by-k kernel and a padding
    p >= 0 with k <= 2p + 1, [convolution2d_with_padding] returns the
    top left N-by-N corner of [convolution2d(np.pad(image, p), kernel)],
    whose side is N + 2p - k + 1: the two agree on every cell (i, j)
    with i, j < N. *)
Theorem convolution2d_with_padding_is_corner (h : heap) image kernel I K
    (N k p : nat) :
  h !! image = Some I → h !! kernel = Some K →
  is_matrix N N I → is_matrix k k K →
  (1 ≤ N)%nat → (k ≤ 2 * p + 1)%nat →
  ∃ O F,
    result (convolution2d_with_padding image kernel (Z.of_nat p) h) = Ok O ∧
    result ((padded_image <- np_pad image (Z.of_nat p) ;;
             convolution2d padded_image kernel) h) = Ok F ∧
    is_matrix N N O ∧
    is_matrix (N + 2 * p - k + 1) (N + 2 * p - k + 1) F ∧
    ∀ i j, (i < N)%nat → (j < N)%nat → item O i j = item F i j.
Proof.
  intros HI HK (HIr & HIc & _) (HKr & HKc & _) HN Hfit.
  exists (convolved_same I K p), (convolved (padded I p) K).
  split.
  { rewrite (convolution2d_with_padding_ok h image kernel p I K)
      by (done || lia).
    apply result_insert. }
  split; [apply convolution2d_of_padded_fits; (done || lia) |].
  unfold convolved_same, convolved. simpl nrows. rewrite HIr, HKr.
  split; [apply tabulate_is_matrix |].
  split; [apply tabulate_is_matrix |].
  intros i j Hi Hj. rewrite !item_tabulate by lia. done.
Qed.

Lemma convolution2d_with_padding_is_corner_witness :
  ∃ O F,
    result (convolution2d_with_padding 1%positive 2%positive (Z.of_nat 2)
              demo_heap) = Ok O ∧
    result ((padded_image <- np_pad 1%positive (Z.of_nat 2) ;;
             convolution2d padded_image 2%positive) demo_heap) = Ok F ∧
    is_matrix 5 5 O ∧
    is_matrix (5 + 2 * 2 - 3 + 1) (5 + 2 * 2 - 3 + 1) F ∧
    ∀ i j, (i < 5)%nat → (j < 5)%nat → item O i j = item F i j.
Proof.
  apply (convolution2d_with_padding_is_corner demo_heap 1%positive 2%positive
           input_image filter_kernel 5 3 2).
  - reflexivity.
  - reflexivity.
  - apply input_image_is_matrix.
  - apply filter_kernel_is_matrix.
  - lia.
  - lia.
Defined.

(** ** Images that are not square *)



(** ** Convolution followed by pooling *)

(** X11. Pooling the feature map of a convolution.  For an N-by-N
    image and a k-by-k kernel with k <= N, both int64 arrays, such that in every window the
    absolute values of the products sum to at most 2^53, a pool size p
    with 1 <= p <= N - k + 1 and a stride s >= 1, the call
    [max_pooling2d(convolution2d(image, kernel), p, s)] returns an
    M-by-M array, M = (N - k + 1 - p) div s + 1, whose cell (i, j) is
    the largest of the window sums at the positions (i*s + m, j*s + n),
    m, n < p. *)
Theorem pooling_after_convolution (h : heap) image kernel I K (N k p s : nat) :
  h !! image = Some I → h !! kernel = Some K →
  is_int64 I = true → is_int64 K = true →
  is_matrix N N I → is_matrix k k K → (k ≤ N)%nat →
  (∀ i j, (i < N - k + 1)%nat → (j < N - k + 1)%nat →
     abs_window_sum I K k i j ≤ 2 ^ 53) →
  (1 ≤ p ≤ N - k + 1)%nat → (1 ≤ s)%nat →
  ∃ O,
    result ((feature_map <- convolution2d image kernel ;;
             max_pooling2d feature_map (Z.of_nat p) (Z.of_nat s)) h) = Ok O ∧
    is_matrix ((N - k + 1 - p) / s + 1) ((N - k + 1 - p) / s + 1) O ∧
    ∀ i j, (i < (N - k + 1 - p) / s + 1)%nat →
           (j < (N - k + 1 - p) / s + 1)%nat →
      (∃ m n, (m < p)%nat ∧ (n < p)%nat ∧
         item O i j = window_sum I K k (i * s + m) (j * s + n)) ∧
      (∀ m n, (m < p)%nat → (n < p)%nat →
         window_sum I K k (i * s + m) (j * s + n) ≤ item O i j).
Proof.
  intros HI HK _ _ (HIr & HIc & _) (HKr & HKc & _) Hle Hbound Hp Hs.
  set (F := convolved I K).
  assert (HF : is_matrix (N - k + 1) (N - k + 1) F).
  { unfold F, convolved. rewrite HIr, HKr. apply tabulate_is_matrix. }
  assert (HFitem : ∀ x y, (x < N - k + 1)%nat → (y < N - k + 1)%nat →
            item F x y = window_sum I K k x y).
  { intros x y Hx Hy. unfold F, convolved. rewrite HIr, HKr.
    rewrite item_tabulate by done. apply stored_sum_exact. by apply Hbound. }
  destruct HF as (HFr & HFc & _).
  exists (pooled F p s).
  unfold bind at 1.
  rewrite (convolution2d_ok h image kernel I K) by (done || lia). fold F.
  rewrite (max_pooling2d_ok _ _ p s F)
    by (try (by rewrite lookup_insert_eq); lia).
  split; [apply result_insert |].
  unfold pooled. rewrite HFr.
  split; [apply tabulate_is_matrix |].
  intros i j Hi Hj. rewrite item_tabulate by done.
  assert (Hrow : (i * s + p ≤ N - k + 1)%nat)
    by (apply pooling_window_fits; lia).
  assert (Hcol : (j * s + p ≤ N - k + 1)%nat)
    by (apply pooling_window_fits; lia).
  destruct (window_top_spec F p (i * s) (j * s)) as (_ & Hmem & Hub); [lia |].
  assert (Hexact : to_float64 (window_top F p (i * s) (j * s))
                   = window_top F p (i * s) (j * s)).
  { destruct Hmem as (m & n & Hm & Hn & ->).
    apply to_float64_exact. rewrite HFitem by lia.
    pose proof (window_sum_abs I K k (i * s + m) (j * s + n)).
    pose proof (Hbound (i * s + m)%nat (j * s + n)%nat ltac:(lia) ltac:(lia)).
    lia. }
  rewrite Hexact. split.
  - destruct Hmem as (m & n & Hm & Hn & Heq).
    exists m, n. split; [done |]. split; [done |].
    rewrite Heq. apply HFitem; lia.
  - intros m n Hm Hn. rewrite <- HFitem by lia. by apply Hub.
Qed.

Lemma pooling_after_convolution_witness :
  ∃ O,
    result ((feature_map <- convolution2d 1%positive 2%positive ;;
             max_pooling2d feature_map (Z.of_nat 2) (Z.of_nat 1)) demo_heap)
      = Ok O ∧
    is_matrix ((5 - 3 + 1 - 2) / 1 + 1) ((5 - 3 + 1 - 2) / 1 + 1) O ∧
    ∀ i j, (i < (5 - 3 + 1 - 2) / 1 + 1)%nat →
           (j < (5 - 3 + 1 - 2) / 1 + 1)%nat →
      (∃ m n, (m < 2)%nat ∧ (n < 2)%nat ∧
         item O i j
         = window_sum input_image filter_kernel 3 (i * 1 + m) (j * 1 + n)) ∧
      (∀ m n, (m < 2)%nat → (n < 2)%nat →
         window_sum input_image filter_kernel 3 (i * 1 + m) (j * 1 + n)
         ≤ item O i j).
Proof.
  apply (pooling_after_convolution demo_heap 1%positive 2%positive
           input_image filter_kernel 5 3 2 1).
  - reflexivity.
  - reflexivity.
  - reflexivity.
  - reflexivity.
  - apply input_image_is_matrix.
  - apply filter_kernel_is_matrix.
  - lia.
  - intros i j Hi Hj. below i; below j; vm_compute; discriminate.
  - lia.
  - lia.
Defined.

(** ** Pooling laws *)

Lemma is_matrix_empty a : is_matrix 0 0 a → a = np_array [].
Proof.
  destruct a as [r c l]. intros (Hr & Hc & Hl & _). simpl in *. subst.
  by destruct l.
Qed.

(** X12. A 1-by-1 pool with stride 1 copies the image into a float64
    array: on every square int64 image, the empty one included,
    [max_pooling2d(image, 1, 1)] returns a new array of the shape of the
    image whose cell (i, j) is image[i][j] converted to float64. *)
Theorem max_pooling2d_unit_window_copies (h : heap) image I (N : nat) :
  h !! image = Some I → is_int64 I = true → is_matrix N N I →
  result (max_pooling2d image 1 1 h) = Ok (as_float64 I).
Proof.
  intros HI _ HIm. pose proof HIm as (HIr & HIc & _).
  unfold as_float64. rewrite HIr, HIc.
  destruct (decide (N = 0)%nat) as [-> | Hpos].
  - rewrite (max_pooling2d_no_cells h image I) by (done || lia).
    by rewrite result_insert.
  - change 1 with (Z.of_nat 1).
    rewrite (max_pooling2d_ok h image 1 1 I) by (done || lia).
    rewrite result_insert. f_equal.
    unfold pooled. rewrite HIr, Nat.div_1_r.
    replace (N - 1 + 1)%nat with N by lia.
    apply tabulate_ext. intros i j Hi Hj. f_equal.
    destruct (window_top_spec I 1 (i * 1) (j * 1)) as (_ & Hmem & _); [lia |].
    destruct Hmem as (m & n & Hm & Hn & ->).
    f_equal; lia.
Qed.

Lemma max_pooling2d_unit_window_copies_witness :
  result (max_pooling2d 1%positive 1 1 demo_heap)
  = Ok (as_float64 input_image).
Proof.
  apply (max_pooling2d_unit_window_copies demo_heap 1%positive input_image 5).
  - reflexivity.
  - reflexivity.
  - apply input_image_is_matrix.
Defined.

(** X13. Max pooling is monotone: if every cell of one N-by-N image is
    at most the same cell of another, then, for 1 <= p <= N and
    s >= 1, every cell of the pooled first image is at most the same
    cell of the pooled second image. *)
Theorem max_pooling2d_monotone (h : heap) image1 image2 I1 I2 (N p s : nat) :
  h !! image1 = Some I1 → h !! image2 = Some I2 →
  is_matrix N N I1 → is_matrix N N I2 →
  (∀ i j, (i < N)%nat → (j < N)%nat → item I1 i j ≤ item I2 i j) →
  (1 ≤ p ≤ N)%nat → (1 ≤ s)%nat →
  ∃ O1 O2,
    result (max_pooling2d image1 (Z.of_nat p) (Z.of_nat s) h) = Ok O1 ∧
    result (max_pooling2d image2 (Z.of_nat p) (Z.of_nat s) h) = Ok O2 ∧
    ∀ i j, (i < (N - p) / s + 1)%nat → (j < (N - p) / s + 1)%nat →
      item O1 i j ≤ item O2 i j.
Proof.
  intros H1 H2 (Hr1 & Hc1 & _) (Hr2 & Hc2 & _) Hle Hp Hs.
  exists (pooled I1 p s), (pooled I2 p s).
  rewrite (max_pooling2d_ok h image1 p s I1) by (done || lia).
  rewrite (max_pooling2d_ok h image2 p s I2) by (done || lia).
  rewrite !result_insert. split; [done |]. split; [done |].
  intros i j Hi Hj. unfold pooled. rewrite Hr1, Hr2.
  rewrite !item_tabulate by done.
  assert (Hrow : (i * s + p ≤ N)%nat) by (apply pooling_window_fits; lia).
  assert (Hcol : (j * s + p ≤ N)%nat) by (apply pooling_window_fits; lia).
  destruct (window_top_spec I1 p (i * s) (j * s)) as (_ & Hmem & _); [lia |].
  destruct (window_top_spec I2 p (i * s) (j * s)) as (_ & _ & Hub); [lia |].
  destruct Hmem as (m & n & Hm & Hn & ->).
  apply to_float64_mono.
  etrans; [apply Hle; lia | by apply Hub].
Qed.

Lemma max_pooling2d_monotone_witness :
  ∃ O1 O2,
    result (max_pooling2d 1%positive (Z.of_nat 2) (Z.of_nat 2) extra_heap)
      = Ok O1 ∧
    result (max_pooling2d 6%positive (Z.of_nat 2) (Z.of_nat 2) extra_heap)
      = Ok O2 ∧
    ∀ i j, (i < (5 - 2) / 2 + 1)%nat → (j < (5 - 2) / 2 + 1)%nat →
      item O1 i j ≤ item O2 i j.
Proof.
  apply (max_pooling2d_monotone extra_heap 1%positive 6%positive
           input_image brighter_image 5 2 2).
  - reflexivity.
  - reflexivity.
  - apply input_image_is_matrix.
  - apply tabulate_is_matrix.
  - intros i j Hi Hj. unfold brighter_image.
    rewrite (item_tabulate 5 5) by done. lia.
  - lia.
  - lia.
Defined.

(** ** Linearity of the convolution *)

Lemma bigsum_scale n (c : Z) (u : nat → Z) :
  bigsum n (λ i, c * u i) = c * bigsum n u.
Proof.
  unfold bigsum. induction (seq 0 n) as [| x l IH]; simpl; [lia |].
  rewrite IH. lia.
Qed.

Lemma wrap64_mul_l x y : wrap64 (wrap64 x * y) = wrap64 (x * y).
Proof. by rewrite (Z.mul_comm (wrap64 x)), wrap64_mul_r, Z.mul_comm. Qed.

(** X14. A 1-by-1 int64 kernel [[c]] scales the image: on every square
    int64 image, the empty one included, whose entries satisfy |c * image[i][j]| <=
    2^53, [convolution2d] returns a new array of the shape of the image
    whose cell (i, j) is c * image[i][j]. *)
Theorem convolution2d_unit_kernel_scales (h : heap) image kernel I K (N : nat) :
  h !! image = Some I → h !! kernel = Some K →
  is_int64 I = true → is_int64 K = true →
  is_matrix N N I → is_matrix 1 1 K →
  (∀ i j, (i < N)%nat → (j < N)%nat →
     Z.abs (item K 0 0 * item I i j) ≤ 2 ^ 53) →
  result (convolution2d image kernel h) = Ok (array_scale (item K 0 0) I).
Proof.
  intros HI HK _ _ (HIr & HIc & _) (HKr & HKc & _) Hbound.
  unfold array_scale. rewrite HIr, HIc.
  destruct (decide (N = 0)%nat) as [-> | Hpos].
  - rewrite (convolution2d_no_cells h image kernel I K) by (done || lia).
    by rewrite result_insert.
  - rewrite (convolution2d_ok h image kernel I K) by (done || lia).
    rewrite result_insert. f_equal.
    unfold convolved. rewrite HIr, HKr.
    replace (N - 1 + 1)%nat with N by lia.
    apply tabulate_ext. intros i j Hi Hj.
    assert (Hws : window_sum I K 1 i j = item K 0 0 * item I i j).
    { unfold window_sum, bigsum. simpl. rewrite !Nat.add_0_r. lia. }
    specialize (Hbound i j Hi Hj).
    unfold stored_sum. rewrite Hws.
    rewrite wrap64_small by lia. apply to_float64_exact. lia.
Qed.

Lemma convolution2d_unit_kernel_scales_witness :
  result (convolution2d 1%positive 5%positive extra_heap)
  = Ok (array_scale (item unit_kernel 0 0) input_image).
Proof.
  apply (convolution2d_unit_kernel_scales extra_heap 1%positive 5%positive
           input_image unit_kernel 5).
  - reflexivity.
  - reflexivity.
  - reflexivity.
  - reflexivity.
  - apply input_image_is_matrix.
  - repeat split. repeat constructor.
  - intros i j Hi Hj. below i; below j; vm_compute; discriminate.
Defined.

Lemma wrap64_window_sum_add_image I1 I2 K (N k i j : nat) :
  nrows I1 = N → ncols I1 = N → (i + k ≤ N)%nat → (j + k ≤ N)%nat →
  wrap64 (window_sum (int64_add I1 I2) K k i j)
  = wrap64 (window_sum I1 K k i j + window_sum I2 K k i j).
Proof.
  intros Hr Hc Hi Hj. unfold window_sum, int64_add. rewrite Hr, Hc.
  rewrite <- bigsum_add.
  apply wrap64_bigsum. intros m Hm. rewrite <- bigsum_add.
  apply wrap64_bigsum. intros n Hn.
  rewrite item_tabulate by lia. rewrite wrap64_mul_l. f_equal. lia.
Qed.

(** X15. [convolution2d] is additive in the image where the arithmetic
    is exact: for two N-by-N images I1 and I2 and a k-by-k kernel with
    k <= N, all int64 arrays, such that, in every window, the absolute values of the
    products for I1 and of the products for I2 together sum to at most
    2^53, the feature map of I1 + I2 is the cell-wise sum of the feature
    maps of I1 and of I2. *)
Theorem convolution2d_additive_in_image (h : heap) image1 image2 image12 kernel
    I1 I2 K (N k : nat) :
  h !! image1 = Some I1 → h !! image2 = Some I2 →
  h !! image12 = Some (int64_add I1 I2) →
  h !! kernel = Some K →
  is_int64 I1 = true → is_int64 I2 = true → is_int64 K = true →
  is_matrix N N I1 → is_matrix N N I2 → is_matrix k k K → (k ≤ N)%nat →
  (∀ i j, (i < N - k + 1)%nat → (j < N - k + 1)%nat →
     abs_window_sum I1 K k i j + abs_window_sum I2 K k i j ≤ 2 ^ 53) →
  ∃ O1 O2,
    result (convolution2d image1 kernel h) = Ok O1 ∧
    result (convolution2d image2 kernel h) = Ok O2 ∧
    result (convolution2d image12 kernel h) = Ok (float64_add O1 O2).
Proof.
  intros H1 H2 H12 HK _ _ _ (Hr1 & Hc1 & _) (Hr2 & Hc2 & _) (HKr & HKc & _) Hle
    Hbound.
  exists (convolved I1 K), (convolved I2 K).
  rewrite (convolution2d_ok h image1 kernel I1 K) by (done || lia).
  rewrite (convolution2d_ok h image2 kernel I2 K) by (done || lia).
  rewrite (convolution2d_ok h image12 kernel (int64_add I1 I2) K)
    by (done || (simpl; lia)).
  rewrite !result_insert. split; [done |]. split; [done |]. f_equal.
  unfold convolved, float64_add. simpl nrows. simpl ncols.
  rewrite Hr1, Hr2, HKr.
  apply tabulate_ext. intros i j Hi Hj.
  rewrite !item_tabulate by done.
  specialize (Hbound i j Hi Hj).
  pose proof (abs_window_sum_nonneg I1 K k i j).
  pose proof (abs_window_sum_nonneg I2 K k i j).
  pose proof (window_sum_abs I1 K k i j).
  pose proof (window_sum_abs I2 K k i j).
  rewrite (stored_sum_exact I1 K), (stored_sum_exact I2 K) by lia.
  unfold stored_sum.
  rewrite (wrap64_window_sum_add_image I1 I2 K N k) by (done || lia).
  rewrite wrap64_small by lia. done.
Qed.

Lemma convolution2d_additive_in_image_witness :
  ∃ O1 O2,
    result (convolution2d 1%positive 2%positive extra_heap) = Ok O1 ∧
    result (convolution2d 6%positive 2%positive extra_heap) = Ok O2 ∧
    result (convolution2d 7%positive 2%positive extra_heap)
      = Ok (float64_add O1 O2).
Proof.
  apply (convolution2d_additive_in_image extra_heap 1%positive 6%positive
           7%positive 2%positive input_image brighter_image filter_kernel 5 3).
  - reflexivity.
  - reflexivity.
  - reflexivity.
  - reflexivity.
  - reflexivity.
  - reflexivity.
  - reflexivity.
  - apply input_image_is_matrix.
  - apply tabulate_is_matrix.
  - apply filter_kernel_is_matrix.
  - lia.
  - intros i j Hi Hj. below i; below j; vm_compute; discriminate.
Defined.

Lemma wrap64_window_sum_scale I K (c : Z) (k i j : nat) :
  nrows K = k → ncols K = k →
  wrap64 (window_sum I (int64_scale c K) k i j)
  = wrap64 (c * window_sum I K k i j).
Proof.
  intros Hr Hc. unfold window_sum, int64_scale. rewrite Hr, Hc.
  rewrite <- bigsum_scale.
  apply wrap64_bigsum. intros m Hm. rewrite <- bigsum_scale.
  apply wrap64_bigsum. intros n Hn.
  rewrite item_tabulate by done. rewrite wrap64_mul_r. f_equal. lia.
Qed.

(** X16. [convolution2d] is homogeneous in the kernel where the
    arithmetic is exact: for an N-by-N image and a k-by-k kernel K with
    k <= N, both int64 arrays, and a number c such that, in every window, |c| times the sum
    of the absolute values of the products is at most 2^53, every cell
    of the feature map of the kernel c * K is c times the same cell of
    the feature map of K. *)
Theorem convolution2d_scales_with_kernel (h : heap) image kernel scaled
    I K (c : Z) (N k : nat) :
  h !! image = Some I → h !! kernel = Some K →
  h !! scaled = Some (int64_scale c K) →
  is_int64 I = true → is_int64 K = true →
  is_matrix N N I → is_matrix k k K → (k ≤ N)%nat →
  (∀ i j, (i < N - k + 1)%nat → (j < N - k + 1)%nat →
     Z.abs c * abs_window_sum I K k i j ≤ 2 ^ 53) →
  ∃ O Oc,
    result (convolution2d image kernel h) = Ok O ∧
    result (convolution2d image scaled h) = Ok Oc ∧
    is_matrix (N - k + 1) (N - k + 1) Oc ∧
    ∀ i j, (i < N - k + 1)%nat → (j < N - k + 1)%nat →
      item Oc i j = c * item O i j.
Proof.
  intros HI HK HcK _ _ (HIr & HIc & _) (HKr & HKc & _) Hle Hbound.
  exists (convolved I K), (convolved I (int64_scale c K)).
  rewrite (convolution2d_ok h image kernel I K) by (done || lia).
  rewrite (convolution2d_ok h image scaled I (int64_scale c K))
    by (done || (simpl; lia)).
  rewrite !result_insert. split; [done |]. split; [done |].
  unfold convolved. simpl nrows. rewrite HIr, HKr.
  split; [apply tabulate_is_matrix |].
  intros i j Hi Hj. rewrite !item_tabulate by done.
  specialize (Hbound i j Hi Hj).
  pose proof (abs_window_sum_nonneg I K k i j) as Hnn.
  pose proof (window_sum_abs I K k i j) as Habs.
  unfold stored_sum at 1. rewrite (wrap64_window_sum_scale I K c k) by done.
  destruct (decide (c = 0)) as [-> | Hc].
  - rewrite !Z.mul_0_l. reflexivity.
  - assert (abs_window_sum I K k i j ≤ 2 ^ 53) by nia.
    rewrite (stored_sum_exact I K) by done.
    assert (Z.abs (c * window_sum I K k i j) ≤ 2 ^ 53).
    { rewrite Z.abs_mul.
      etrans; [apply Z.mul_le_mono_nonneg_l; [lia | exact Habs] | done]. }
    rewrite wrap64_small by lia. by apply to_float64_exact.
Qed.

Lemma convolution2d_scales_with_kernel_witness :
  ∃ O Oc,
    result (convolution2d 1%positive 2%positive extra_heap) = Ok O ∧
    result (convolution2d 1%positive 8%positive extra_heap) = Ok Oc ∧
    is_matrix (5 - 3 + 1) (5 - 3 + 1) Oc ∧
    ∀ i j, (i < 5 - 3 + 1)%nat → (j < 5 - 3 + 1)%nat →
      item Oc i j = 2 * item O i j.
Proof.
  apply (convolution2d_scales_with_kernel extra_heap 1%positive 2%positive
           8%positive input_image filter_kernel 2 5 3).
  - reflexivity.
  - reflexivity.
  - reflexivity.
  - reflexivity.
  - reflexivity.
  - apply input_image_is_matrix.
  - apply filter_kernel_is_matrix.
  - lia.
  - intros i j Hi Hj. below i; below j; vm_compute; discriminate.
Defined.

(** ** The shape of whatever is returned *)

Lemma finish_fill_shape out cell n (r c : nat) (h : heap) a0 O :
  h !! out = Some a0 → is_matrix r c a0 →
  result (finish out (fill out cell n h)) = Ok O →
  is_matrix r c O.
Proof.
  intros Hout Ha0.
  destruct (fill_keeps_shape out cell n r c h) as (a & Ha & Hshape); [eauto |].
  destruct (fill out cell n h) as [[[] | e] h']; simpl in *; [| done].
  rewrite Ha. by intros [= <-].
Qed.

(** X17. Whenever [convolution2d] or [max_pooling2d] returns, on inputs
    of any shape, the array returned is square and its side comes from
    the row counts alone: rows(image) - rows(kernel) + 1 for the
    convolution, (rows(image) - pool_size) div stride + 1 for the
    pooling. *)
Theorem returned_arrays_are_square (h : heap) image kernel I K
    (pool_size stride : Z) :
  h !! image = Some I → h !! kernel = Some K →
  (∀ O, result (convolution2d image kernel h) = Ok O →
     is_matrix (Z.to_nat (Z.of_nat (nrows I) - Z.of_nat (nrows K) + 1))
               (Z.to_nat (Z.of_nat (nrows I) - Z.of_nat (nrows K) + 1)) O) ∧
  (∀ O, result (max_pooling2d image pool_size stride h) = Ok O →
     is_matrix (Z.to_nat ((Z.of_nat (nrows I) - pool_size) / stride + 1))
               (Z.to_nat ((Z.of_nat (nrows I) - pool_size) / stride + 1)) O).
Proof.
  intros HI HK. split; intros O.
  - rewrite (convolution2d_run h image kernel I K) by done.
    case_decide; [done |].
    eapply finish_fill_shape;
      [by rewrite lookup_insert_eq | apply tabulate_is_matrix].
  - rewrite (max_pooling2d_run h image pool_size stride I) by done.
    repeat case_decide; try done.
    eapply finish_fill_shape;
      [by rewrite lookup_insert_eq | apply tabulate_is_matrix].
Qed.

Lemma returned_arrays_are_square_witness :
  (∀ O, result (convolution2d 3%positive 4%positive extra_heap) = Ok O →
     is_matrix (Z.to_nat (Z.of_nat (nrows wide_image)
                          - Z.of_nat (nrows pair_kernel) + 1))
               (Z.to_nat (Z.of_nat (nrows wide_image)
                          - Z.of_nat (nrows pair_kernel) + 1)) O) ∧
  (∀ O, result (max_pooling2d 3%positive 2 1 extra_heap) = Ok O →
     is_matrix (Z.to_nat ((Z.of_nat (nrows wide_image) - 2) / 1 + 1))
               (Z.to_nat ((Z.of_nat (nrows wide_image) - 2) / 1 + 1)) O).
Proof.
  apply (returned_arrays_are_square extra_heap 3%positive 4%positive
           wide_image pair_kernel 2 1); reflexivity.
Defined.

(** ** A 2-by-2 kernel without padding: the border is broadcast *)




